(** * File transfer over TCP / TLS: framing codec, client session, server session

    A shallow embedding of [client.py] and [server.py].

    - Python [bytes] are lists of [Byte.byte]; Python [int]s are [Z].
    - A Python [str] is represented by its UTF-8 encoding (a [bytes] value
      accepted by the strict decoder), so [.encode('utf-8')] is the identity
      on the representation and [.decode('utf-8')] is a validity check.
    - Everything the operating system or the peer decides (what [recv]
      returns, whether [open] or [sendall] raise, what the clock reads) is
      an explicit environment record passed to the functions.
    - Console output ([print]) is recorded in a log and assumed not to
      raise. *)

From Stdlib Require Import ZArith NArith Strings.Byte PrimFloat Lia.
From stdpp Require Import gmap list strings.

Local Open Scope Z_scope.

(** ** Python primitives used by the program *)

Module Py.

Definition bytes := list byte.

(** A [str], held as its UTF-8 encoding. *)
Definition text := list byte.

(** The exceptions that occur.  All derive from [Exception] except
    [KeyboardInterrupt]. *)
Inductive exn :=
  | ValueError
  | UnicodeDecodeError
  | OSError
  | ConnectionRefusedError
  | TimeoutError
  | GaiError                (* [socket.gaierror]: name resolution *)
  | SSLError
  | RuntimeError
  | KeyboardInterrupt.

Definition is_exception (e : exn) : bool :=
  match e with
  | KeyboardInterrupt => false
  | _ => true
  end.

#[global] Instance exn_eq_dec : EqDecision exn.
Proof. solve_decision. Defined.

(** [len(x)] as a Python integer. *)
Definition len {A} (l : list A) : Z := Z.of_nat (length l).

(** Normalisation of a slice bound [i] against a sequence of length [n]:
    negative bounds count from the end, everything is clipped to [0..n]. *)
Definition clamp (n : nat) (i : Z) : nat :=
  if i <? 0 then Z.to_nat (Z.max 0 (Z.of_nat n + i))
  else Nat.min (Z.to_nat i) n.

(** [data[:k]] *)
Definition slice_to {A} (data : list A) (k : Z) : list A :=
  take (clamp (length data) k) data.

(** [data[k:]] *)
Definition slice_from {A} (data : list A) (k : Z) : list A :=
  drop (clamp (length data) k) data.

(** [sub in data] for a one-byte [sub]. *)
Definition contains (sub : byte) (data : bytes) : bool :=
  existsb (Byte.eqb sub) data.

(** Index of the first [sub] in [data], counting the head as index [i];
    [-1] when there is none. *)
Fixpoint find_at (sub : byte) (data : bytes) (i : Z) : Z :=
  match data with
  | [] => -1
  | b :: rest => if Byte.eqb b sub then i else find_at sub rest (i + 1)
  end.

(** [data.find(sub, start)] for a one-byte [sub]. *)
Definition find (data : bytes) (sub : byte) (start : Z) : Z :=
  let s := clamp (length data) start in
  if (Z.of_nat (length data) <? start) then -1
  else find_at sub (drop s data) (Z.of_nat s).

(** [s.split(sep)] for a one-character ASCII [sep]: never the empty list. *)
Fixpoint split (sep : byte) (s : text) : list text :=
  match s with
  | [] => [[]]
  | c :: rest =>
      if Byte.eqb c sep then [] :: split sep rest
      else match split sep rest with
           | [] => [[c]]
           | p :: ps => (c :: p) :: ps
           end
  end.

(** *** Strict UTF-8 decoding

    The decoder as an automaton over bytes: the state says which
    continuation bytes are still owed.  Over-long forms, surrogates and
    code points above U+10FFFF are rejected, as [bytes.decode('utf-8')]
    does. *)

Inductive utf8_state :=
  | U_start        (* between characters *)
  | U_c1           (* one continuation byte owed *)
  | U_c2           (* two owed *)
  | U_c3           (* three owed *)
  | U_e0           (* after E0: next in A0..BF *)
  | U_ed           (* after ED: next in 80..9F *)
  | U_f0           (* after F0: next in 90..BF *)
  | U_f4.          (* after F4: next in 80..8F *)

Definition in_range (lo hi : N) (b : byte) : bool :=
  ((lo <=? Byte.to_N b) && (Byte.to_N b <=? hi))%N.

Definition utf8_step (st : utf8_state) (b : byte) : option utf8_state :=
  match st with
  | U_start =>
      if in_range 0 127 b then Some U_start
      else if in_range 194 223 b then Some U_c1
      else if in_range 224 224 b then Some U_e0
      else if in_range 237 237 b then Some U_ed
      else if in_range 225 239 b then Some U_c2
      else if in_range 240 240 b then Some U_f0
      else if in_range 241 243 b then Some U_c3
      else if in_range 244 244 b then Some U_f4
      else None
  | U_c1 => if in_range 128 191 b then Some U_start else None
  | U_c2 => if in_range 128 191 b then Some U_c1 else None
  | U_c3 => if in_range 128 191 b then Some U_c2 else None
  | U_e0 => if in_range 160 191 b then Some U_c1 else None
  | U_ed => if in_range 128 159 b then Some U_c1 else None
  | U_f0 => if in_range 144 191 b then Some U_c2 else None
  | U_f4 => if in_range 128 143 b then Some U_c2 else None
  end.

Fixpoint utf8_run (st : utf8_state) (bs : bytes) : option utf8_state :=
  match bs with
  | [] => Some st
  | b :: rest =>
      match utf8_step st b with
      | Some st' => utf8_run st' rest
      | None => None
      end
  end.

Definition utf8_valid (bs : bytes) : bool :=
  match utf8_run U_start bs with
  | Some U_start => true
  | _ => false
  end.

(** [bs.decode('utf-8')] *)
Definition decode_utf8 (bs : bytes) : exn + text :=
  if utf8_valid bs then inr bs else inl UnicodeDecodeError.

Definition is_ascii (b : byte) : bool := in_range 0 127 b.

(** *** [int(s)] in base ten

    For an ASCII string the conversion is: skip leading white space
    (TAB, LF, VT, FF, CR, SPACE), an optional sign, then decimal digits
    with single underscores allowed between digits, then trailing white
    space, and nothing else. *)

Definition is_space (b : byte) : bool :=
  in_range 9 13 b || in_range 32 32 b.

Definition digit_val (b : byte) : option Z :=
  if in_range 48 57 b then Some (Z.of_N (Byte.to_N b) - 48) else None.

Fixpoint lstrip (s : text) : text :=
  match s with
  | [] => []
  | b :: rest => if is_space b then lstrip rest else s
  end.

(** The digit scan: [acc] is the value read so far, [prev_us] says that
    the previous character was an underscore.  Returns the value and the
    unread rest. *)
Fixpoint scan_int (s : text) (acc : Z) (prev_us : bool) : option (Z * text) :=
  match s with
  | [] => if prev_us then None else Some (acc, [])
  | b :: rest =>
      if Byte.eqb b "_"%byte then
        if prev_us then None else scan_int rest acc true
      else
        match digit_val b with
        | Some d => scan_int rest (10 * acc + d) false
        | None => if prev_us then None else Some (acc, s)
        end
  end.

Definition int_ascii (s : text) : option Z :=
  let s1 := lstrip s in
  let '(sign, s2) :=
    match s1 with
    | b :: rest =>
        if Byte.eqb b "+"%byte then (1, rest)
        else if Byte.eqb b "-"%byte then (-1, rest)
        else (1, s1)
    | [] => (1, s1)
    end in
  match s2 with
  | b :: _ =>
      match digit_val b with
      | Some _ =>
          match scan_int s2 0 false with
          | Some (v, rest) =>
              match lstrip rest with
              | [] => Some (sign * v)
              | _ :: _ => None
              end
          | None => None
          end
      | None => None
      end
  | [] => None
  end.

(** [int(s)].  A string with a non-ASCII character is first rewritten
    with the interpreter's Unicode tables (Unicode spaces and decimal
    digits); those tables are not part of the program, so that case is
    delegated to [unicode_int].  The interpreter's bound on the number
    of digits (4300 by default in recent versions) is left out. *)
Definition int (unicode_int : text -> option Z) (s : text) : exn + Z :=
  match (if forallb is_ascii s then int_ascii s else unicode_int s) with
  | Some z => inr z
  | None => inl ValueError
  end.

(** *** [str(n)] for a non-negative integer *)

Definition digit_byte (d : N) : byte :=
  match d with
  | 0%N => "0" | 1%N => "1" | 2%N => "2" | 3%N => "3" | 4%N => "4"
  | 5%N => "5" | 6%N => "6" | 7%N => "7" | 8%N => "8" | _ => "9"
  end%byte.

Fixpoint digits_of (fuel : nat) (n : N) (acc : text) : text :=
  match fuel with
  | O => acc
  | S fuel' =>
      let acc' := digit_byte (n mod 10) :: acc in
      if (n / 10 =? 0)%N then acc' else digits_of fuel' (n / 10)%N acc'
  end.

(** The bytes that [str] of a number is made of. *)
Definition digit (b : byte) : Prop := exists d, (d < 10)%N /\ b = digit_byte d.

(** A number below [2^k] has at most [k] decimal digits, so the binary
    size of [n] (plus one, for zero) is always enough fuel. *)
Definition str_of_nat (n : nat) : text :=
  digits_of (S (N.to_nat (N.size (N.of_nat n)))) (N.of_nat n) [].

(** Reading a file opened in text mode translates every line ending
    (CR LF, or a lone CR) to LF. *)
Fixpoint universal_newlines (s : text) : text :=
  match s with
  | [] => []
  | x0d :: rest =>
      x0a :: match rest with
             | x0a :: rest' => universal_newlines rest'
             | _ => universal_newlines rest
             end
  | c :: rest => c :: universal_newlines rest
  end.

(** [os.path.basename(p)] on a POSIX system: what follows the last
    slash. *)
Fixpoint basename (p : text) : text :=
  match p with
  | [] => []
  | c :: rest =>
      if Byte.eqb c "/"%byte then basename rest
      else if contains "/"%byte rest then basename rest
      else p
  end.

(** [os.path.join(a, b)] on a POSIX system. *)
Definition path_join (a b : text) : text :=
  match b with
  | c :: _ =>
      if Byte.eqb c "/"%byte then b
      else match last a with
           | None => b
           | Some e => if Byte.eqb e "/"%byte then a ++ b else a ++ "/"%byte :: b
           end
  | [] =>
      match last a with
      | None => b
      | Some e => if Byte.eqb e "/"%byte then a else a ++ ["/"%byte]
      end
  end.

(** A byte-string literal. *)
Definition lit (s : String.string) : bytes := String.list_byte_of_string s.
Arguments lit s%_string.

End Py.

(** Bytes as keys of finite maps (paths of the file system). *)
#[global] Instance byte_eq_dec : EqDecision byte := Byte.byte_eq_dec.
#[global] Instance byte_countable : Countable byte :=
  inj_countable Byte.to_N Byte.of_N Byte.of_to_N.

(** ** Effects: state passing with exceptions

    A computation reads and updates a state and either returns a value
    or raises; what it did to the state before raising stays done. *)

Definition Eff (S A : Type) : Type := S -> (Py.exn + A) * S.

#[global] Instance Eff_ret {S} : MRet (Eff S) :=
  fun A (x : A) (s : S) => (inr x, s).

#[global] Instance Eff_bind {S} : MBind (Eff S) :=
  fun A B (k : A -> Eff S B) (m : Eff S A) (s : S) =>
    match m s with
    | (inl e, s') => (inl e, s')
    | (inr x, s') => k x s'
    end.

Definition raise {S A} (e : Py.exn) : Eff S A := fun s => (inl e, s).

Definition modify {S} (f : S -> S) : Eff S unit := fun s => (inr tt, f s).

(** A pure computation that may raise. *)
Definition lift {S A} (r : Py.exn + A) : Eff S A := fun s => (r, s).

(** What the outside world answers to an operation that may raise:
    [None] when it goes through. *)
Definition answer := option Py.exn.

Definition check {S} (a : answer) : Eff S unit :=
  match a with
  | None => mret tt
  | Some e => raise e
  end.

Definition went_through (a : answer) : bool :=
  match a with
  | None => true
  | Some _ => false
  end.

(** The answer is no worse than an [Exception]: it is not the
    operator's interrupt. *)
Definition is_exception_answer (a : answer) : bool :=
  match a with
  | None => true
  | Some e => Py.is_exception e
  end.

(** [try: body except Exception as e: handler(e)] *)
Definition try_except {S A} (body : Eff S A) (handler : Py.exn -> Eff S A) : Eff S A :=
  fun s =>
    match body s with
    | (inl e, s') => if Py.is_exception e then handler e s' else (inl e, s')
    | (inr x, s') => (inr x, s')
    end.

(** [try: body finally: final] *)
Definition try_finally {S A} (body : Eff S A) (final : Eff S unit) : Eff S A :=
  fun s =>
    match body s with
    | (r, s') =>
        match final s' with
        | (inl e, s'') => (inl e, s'')
        | (inr _, s'') => (r, s'')
        end
    end.

(** Unfolds the plumbing of the monad. *)
Ltac eff := cbv [mbind mret Eff_bind Eff_ret lift raise check modify].

(** ** The server: [server.py] *)

Module Server.

Import Py.

Definition DELIM : byte := "|"%byte.

Definition ACK : bytes := lit "ACK: Arquivo recebido com sucesso!".

Definition output_dir : text := lit "received_files".

(** [protocol = "TLS" if self.use_tls else "TCP"] *)
Definition protocol (use_tls : bool) : text :=
  if use_tls then lit "TLS" else lit "TCP".

(** One return of [client_socket.recv(4096)]: some bytes (the empty
    string when the peer has closed) or an exception.  The operating
    system hands over at most 4096 bytes at a time; the handler never
    relies on that bound, and neither does anything proved below. *)
Inductive recv_event :=
  | RecvData (chunk : bytes)
  | RecvRaise (e : exn).

(** The connection as the handler meets it: the results of the
    successive [recv] calls (once they are used up the peer has closed
    and [recv] returns the empty string), and the answer to [sendall]. *)
Record conn := {
  incoming : list recv_event;
  sendall_answer : answer;
}.

(** The machine the server runs on. *)
Record env := {
  unicode_int : text -> option Z;          (* [int] on non-ASCII strings *)
  open_answer : text -> answer;            (* [open(path, 'wb')] *)
  write_answer : text -> bytes -> answer;  (* [f.write(content)] *)
}.

(** Lines printed by the handler. *)
Inductive log_line :=
  | LogReceiving (name : text) (size : Z)
  | LogSaved (filepath : text)
  | LogError (e : exn)
  | LogConnClosed.

(** What a handler acts on: the file system, its socket, the console. *)
Record state := {
  files : gmap text bytes;
  sent : list bytes;            (* written to the socket, oldest first *)
  closed : bool;                (* the socket has been closed *)
  printed : list log_line;
}.

Definition fresh (fs : gmap text bytes) : state :=
  {| files := fs; sent := []; closed := false; printed := [] |}.

Definition print (l : log_line) : Eff state unit :=
  modify (fun s => {| files := files s; sent := sent s; closed := closed s;
                      printed := printed s ++ [l] |}).

(** [open(filepath, 'wb')]: creates the file or empties it. *)
Definition open_wb (ev : env) (filepath : text) : Eff state unit :=
  check (open_answer ev filepath);;
  modify (fun s => {| files := <[filepath := []]> (files s); sent := sent s;
                      closed := closed s; printed := printed s |}).

(** [f.write(content)] followed by the close of the [with] block. *)
Definition write (ev : env) (filepath : text) (content : bytes) : Eff state unit :=
  check (write_answer ev filepath content);;
  modify (fun s => {| files := <[filepath := content]> (files s); sent := sent s;
                      closed := closed s; printed := printed s |}).

(** [client_socket.sendall(msg)] *)
Definition sendall (c : conn) (msg : bytes) : Eff state unit :=
  check (sendall_answer c);;
  modify (fun s => {| files := files s; sent := sent s ++ [msg];
                      closed := closed s; printed := printed s |}).

(** [client_socket.close()] *)
Definition close : Eff state unit :=
  modify (fun s => {| files := files s; sent := sent s; closed := true;
                      printed := printed s |}).

(** The local variables of the receive loop. *)
Record locals := {
  data : bytes;
  header_received : bool;
  filename : text;
  filesize : Z;
}.

Definition init_locals : locals :=
  {| data := []; header_received := false; filename := []; filesize := 0 |}.

Definition set_data (st : locals) (d : bytes) : locals :=
  {| data := d; header_received := header_received st;
     filename := filename st; filesize := filesize st |}.

(** [parts[i]]; the handler indexes only after checking the length. *)
Definition item (parts : list text) (i : nat) : text := nth i parts [].

(** Lines 118-132: the header is looked for as soon as the buffer holds
    a delimiter. *)
Definition process_header (ev : env) (st : locals) : Eff state locals :=
  if negb (header_received st) && contains DELIM (data st) then
    let header_end := find (data st) DELIM (find (data st) DELIM 0 + 1) + 1 in
    header ← lift (decode_utf8 (slice_to (data st) header_end));
    let parts := split DELIM header in
    if 2 <=? len parts then
      let name := item parts 0 in
      size ← lift (int (unicode_int ev) (item parts 1));
      print (LogReceiving name size);;
      mret {| data := slice_from (data st) header_end;
              header_received := true;
              filename := name;
              filesize := size |}
    else mret st
  else mret st.

(** Lines 110-136: the receive loop, over the results of the [recv]
    calls. *)
Fixpoint recv_loop (ev : env) (script : list recv_event) (st : locals)
    : Eff state locals :=
  match script with
  | [] => mret st
  | RecvRaise e :: _ => raise e
  | RecvData [] :: _ => mret st
  | RecvData chunk :: rest =>
      st' ← process_header ev (set_data st (data st ++ chunk));
      if header_received st' && (filesize st' <=? len (data st'))
      then mret st'
      else recv_loop ev rest st'
  end.

(** Lines 139-147: persist and acknowledge. *)
Definition save_and_ack (use_tls : bool) (ev : env) (c : conn) (st : locals)
    : Eff state unit :=
  if header_received st then
    let filepath :=
      path_join output_dir (protocol use_tls ++ lit "_" ++ filename st) in
    open_wb ev filepath;;
    write ev filepath (slice_to (data st) (filesize st));;
    print (LogSaved filepath);;
    sendall c ACK
  else mret tt.

(** [_handle_client] *)
Definition _handle_client (use_tls : bool) (ev : env) (c : conn) : Eff state unit :=
  try_finally
    (try_except
       (st ← recv_loop ev (incoming c) init_locals;
        save_and_ack use_tls ev c st)
       (fun e => print (LogError e)))
    (close;; print LogConnClosed).

(** What the handler takes the frame to be once the loop is over: the
    name and the size of the header, and the content it writes. *)
Definition decoded (st : locals) : option (text * Z * bytes) :=
  if header_received st
  then Some (filename st, filesize st, slice_to (data st) (filesize st))
  else None.

(** The exceptions the handler caught, as its log shows them. *)
Definition errors (s : state) : list exn :=
  omap (fun l => match l with LogError e => Some e | _ => None end) (printed s).

(** A byte string with fewer than two delimiters in it. *)
Definition few_delims (x : bytes) : Prop :=
  (DELIM ∉ x) \/ (exists a b, x = a ++ DELIM :: b /\ (DELIM ∉ a) /\ (DELIM ∉ b)).

(** The ways in which what a connection delivers before it closes fails
    to carry a header, with the exception each one leads to. *)
Inductive malformed (ev : env) : bytes -> option exn -> Prop :=
  | TooFewFields (x : bytes) :
      few_delims x ->
      malformed ev x None
  | Undecodable (a b rest : bytes) :
      DELIM ∉ a -> DELIM ∉ b ->
      utf8_valid (a ++ DELIM :: b ++ [DELIM]) = false ->
      malformed ev (a ++ DELIM :: b ++ DELIM :: rest) (Some UnicodeDecodeError)
  | NotAnInteger (a b rest : bytes) (e : exn) :
      DELIM ∉ a -> DELIM ∉ b ->
      utf8_valid (a ++ DELIM :: b ++ [DELIM]) = true ->
      int (unicode_int ev) b = inl e ->
      malformed ev (a ++ DELIM :: b ++ DELIM :: rest) (Some e).

End Server.

(** ** The client: [client.py] *)

Module Client.

Import Py.

(** The socket object held in [self.socket]. *)
Record sock := {
  tls : bool;           (* wrapped by an SSL context *)
  connected : bool;
}.

(** [self.transfer_stats] *)
Record stats := {
  bytes_sent : Z;
  transfer_time : float;
  packet_overhead : Z;
}.

(** What the client does to the outside, in order.  Of a printed line
    only the fixed text is kept, not the values formatted into it. *)
Inductive event :=
  | EvPrint (line : text)
  | EvPrintError (line : text) (e : exn)
  | EvReadFile (filepath : text)
  | EvClock (reading : float)
  | EvSendall (msg : bytes)
  | EvRecv (bufsize : Z) (got : bytes).

(** The client object together with the record of what it has done. *)
Record state := {
  socket : option sock;
  transfer_stats : stats;
  trace : list event;           (* oldest first *)
}.

(** [__init__] *)
Definition init : state :=
  {| socket := None;
     transfer_stats := {| bytes_sent := 0; transfer_time := 0%float;
                          packet_overhead := 0 |};
     trace := [] |}.

(** The machine and the network, as the client meets them. *)
Record env := {
  create_answer : answer;               (* [socket.socket(...)] *)
  context_answer : answer;              (* [ssl.create_default_context] / [wrap_socket] *)
  connect_answer : answer;              (* the TCP connect *)
  handshake_answer : answer;            (* the TLS handshake that follows it *)
  file_exists : text -> bool;           (* [os.path.exists] *)
  file_bytes : text -> exn + bytes;     (* the bytes [open] / [read] get from the disk *)
  sendall_answer : nat -> answer;       (* the n-th [sendall] of the session *)
  recv_answer : exn + bytes;            (* [recv(1024)] *)
  clock : nat -> float;                 (* the n-th reading of [time.time()] *)
}.

Definition set_socket (s : state) (k : option sock) : state :=
  {| socket := k; transfer_stats := transfer_stats s; trace := trace s |}.

Definition set_stats (s : state) (st : stats) : state :=
  {| socket := socket s; transfer_stats := st; trace := trace s |}.

Definition emit (e : event) : Eff state unit :=
  modify (fun s => {| socket := socket s; transfer_stats := transfer_stats s;
                      trace := trace s ++ [e] |}).

Definition print (line : String.string) : Eff state unit :=
  emit (EvPrint (lit line)).
Arguments print line%_string.

Definition print_error (line : String.string) (e : exn) : Eff state unit :=
  emit (EvPrintError (lit line) e).
Arguments print_error line%_string e.

(** [self._create_socket()] *)
Definition _create_socket (ev : env) : Eff state sock :=
  check (create_answer ev);;
  mret {| tls := false; connected := false |}.

(** [connect_plain] *)
Definition connect_plain (ev : env) : Eff state bool :=
  try_except
    (k ← _create_socket ev;
     modify (fun s => set_socket s (Some k));;
     print "[TCP] Conectando...";;
     check (connect_answer ev);;
     modify (fun s => set_socket s (Some {| tls := false; connected := true |}));;
     print "[TCP] Conexao estabelecida com sucesso!";;
     mret true)
    (fun e =>
       print_error "[ERRO] Falha na conexao TCP" e;;
       mret false).

(** [connect_tls]: on an SSL socket [connect] is the TCP connect
    followed by the handshake. *)
Definition connect_tls (ev : env) : Eff state bool :=
  try_except
    (_ ← _create_socket ev;
     check (context_answer ev);;
     modify (fun s => set_socket s (Some {| tls := true; connected := false |}));;
     print "[TLS] Conectando...";;
     check (connect_answer ev);;
     check (handshake_answer ev);;
     modify (fun s => set_socket s (Some {| tls := true; connected := true |}));;
     print "[TLS] Conexao estabelecida com sucesso!";;
     print "[TLS] Protocolo";;
     print "[TLS] Cipher";;
     mret true)
    (fun e =>
       print_error "[ERRO] Falha na conexao TLS" e;;
       mret false).

(** [open(filepath, 'r', encoding='utf-8')] and [f.read()] *)
Definition read_text (ev : env) (filepath : text) : Eff state text :=
  emit (EvReadFile filepath);;
  raw ← lift (file_bytes ev filepath);
  txt ← lift (decode_utf8 raw);
  mret (universal_newlines txt).

Definition is_sendall (e : event) : bool :=
  match e with EvSendall _ => true | _ => false end.

Definition count_sendall (tr : list event) : nat :=
  length (List.filter is_sendall tr).

(** [self.socket.sendall(msg)] *)
Definition sendall (ev : env) (msg : bytes) : Eff state unit :=
  fun s =>
    (check (sendall_answer ev (count_sendall (trace s)));;
     emit (EvSendall msg)) s.

Definition is_clock (e : event) : bool :=
  match e with EvClock _ => true | _ => false end.

Definition count_clock (tr : list event) : nat :=
  length (List.filter is_clock tr).

(** [time.time()] *)
Definition time (ev : env) : Eff state float :=
  fun s =>
    let t := clock ev (count_clock (trace s)) in
    (emit (EvClock t);; mret t) s.

(** [self.socket.recv(bufsize)] *)
Definition recv (ev : env) (bufsize : Z) : Eff state bytes :=
  got ← lift (recv_answer ev);
  emit (EvRecv bufsize got);;
  mret got.

(** Line 94: [f"{filename}|{filesize}|".encode('utf-8')] *)
Definition make_header (filename : text) (filesize : nat) : bytes :=
  filename ++ lit "|" ++ str_of_nat filesize ++ lit "|".

(** [send_file] *)
Definition send_file (ev : env) (filepath : text) : Eff state bool :=
  fun s0 =>
    match socket s0 with
    | None =>
        (print "[ERRO] Nenhuma conexao estabelecida!";; mret false) s0
    | Some _ =>
        if negb (file_exists ev filepath) then
          (print "[ERRO] Arquivo nao encontrado";; mret false) s0
        else
          try_except
            (content ← read_text ev filepath;
             let filename := basename filepath in
             let filesize := length content in
             print "[INFO] Enviando arquivo";;
             print "[INFO] Tamanho";;
             let header := make_header filename filesize in
             start_time ← time ev;
             sendall ev header;;
             sendall ev content;;
             end_time ← time ev;
             got ← recv ev 1024;
             ack ← lift (decode_utf8 got);
             modify (fun s => set_stats s
               {| bytes_sent := len header + Z.of_nat filesize;
                  transfer_time := transfer_time (transfer_stats s);
                  packet_overhead := packet_overhead (transfer_stats s) |});;
             modify (fun s => set_stats s
               {| bytes_sent := bytes_sent (transfer_stats s);
                  transfer_time := PrimFloat.sub end_time start_time;
                  packet_overhead := packet_overhead (transfer_stats s) |});;
             print "[OK] Arquivo enviado com sucesso!";;
             print "[INFO] Tempo de transferencia";;
             emit (EvPrint (lit "[INFO] Resposta do servidor: " ++ ack));;
             mret true)
            (fun e =>
               print_error "[ERRO] Falha no envio" e;;
               mret false) s0
    end.

(** [get_stats]: a copy of the statistics. *)
Definition get_stats (s : state) : stats := transfer_stats s.

(** A computation that leaves [transfer_stats] alone however it ends. *)
Definition keeps_stats {A} (m : Eff state A) : Prop :=
  forall s r s', m s = (r, s') -> transfer_stats s' = transfer_stats s.

(** A computation that leaves [transfer_stats] alone unless it returns
    [True]. *)
Definition keeps_stats_unless_true (m : Eff state bool) : Prop :=
  forall s r s', m s = (r, s') -> r <> inr true ->
                 transfer_stats s' = transfer_stats s.

End Client.

(** ** The acceptor: [FileTransferServer.start] and its handler threads

    [start] runs in one thread and every handler in a thread of its own.
    The server is modelled as a machine whose steps are: start-up, the
    arrival of something at the blocking [accept()] (one turn of the
    [while] loop), and the run of a started handler thread.  A schedule
    is a list of such steps; between two arrivals the acceptor is blocked
    in [accept()]. *)

Module Acceptor.

Import Py.

Inductive line :=
  | LineStarted
  | LineWaiting
  | LineNewConnection (id : nat)
  | LineHandshake (id : nat)
  | LineStopping
  | LineAcceptError (e : exn)
  | LineStartFailed (e : exn).

(** Where the thread that runs [start] is. *)
Inductive position :=
  | NotStarted
  | AtAccept            (* inside the loop, blocked in [accept()] *)
  | Exited.             (* [start] has returned *)

Record server := {
  running : bool;                       (* [self.running] *)
  listener : option bool;               (* [self.socket]: [Some true] while open *)
  position_of : position;
  conns : gmap nat bool;                (* accepted sockets: [true] while open *)
  threads : list (nat * Server.conn);   (* handlers started and not yet run *)
  finished : list (nat * Server.state); (* handlers that have returned *)
  disk : gmap text bytes;
  console : list line;
}.

(** [__init__] *)
Definition init (fs : gmap text bytes) : server :=
  {| running := false; listener := None; position_of := NotStarted;
     conns := ∅; threads := []; finished := []; disk := fs; console := [] |}.

Definition print (l : line) : Eff server unit :=
  modify (fun s =>
    {| running := running s; listener := listener s;
       position_of := position_of s; conns := conns s; threads := threads s;
       finished := finished s; disk := disk s; console := console s ++ [l] |}).

Definition set_running (b : bool) : Eff server unit :=
  modify (fun s =>
    {| running := b; listener := listener s;
       position_of := position_of s; conns := conns s; threads := threads s;
       finished := finished s; disk := disk s; console := console s |}).

Definition set_listener (k : option bool) : Eff server unit :=
  modify (fun s =>
    {| running := running s; listener := k;
       position_of := position_of s; conns := conns s; threads := threads s;
       finished := finished s; disk := disk s; console := console s |}).

Definition set_position (p : position) : Eff server unit :=
  modify (fun s =>
    {| running := running s; listener := listener s;
       position_of := p; conns := conns s; threads := threads s;
       finished := finished s; disk := disk s; console := console s |}).

(** The state of an accepted socket changes: [true] open, [false] closed. *)
Definition set_conn (id : nat) (open : bool) : Eff server unit :=
  modify (fun s =>
    {| running := running s; listener := listener s;
       position_of := position_of s; conns := <[id := open]> (conns s);
       threads := threads s; finished := finished s; disk := disk s;
       console := console s |}).

(** [threading.Thread(target=self._handle_client, ...).start()] *)
Definition start_thread (answer_ : answer) (id : nat) (c : Server.conn) : Eff server unit :=
  check answer_;;
  modify (fun s =>
    {| running := running s; listener := listener s;
       position_of := position_of s; conns := conns s;
       threads := threads s ++ [(id, c)];
       finished := finished s; disk := disk s; console := console s |}).

(** [context.wrap_socket(client_socket, server_side=True)]: the TLS
    handshake.  When it fails the SSL layer, which has taken the
    descriptor over, closes it and raises. *)
Definition wrap_socket (answer_ : answer) (id : nat) : Eff server unit :=
  match answer_ with
  | None => mret tt
  | Some e => set_conn id false;; raise e
  end.

(** [if self.socket: self.socket.close()] *)
Definition close_listener : Eff server unit :=
  fun s =>
    match listener s with
    | Some _ => set_listener (Some false) s
    | None => (inr tt, s)
    end.

(** [stop] *)
Definition stop : Eff server unit :=
  set_running false;;
  close_listener.

(** What [bind], [listen] and the socket creation answer. *)
Record boot := {
  create_answer : answer;
  bind_answer : answer;
  listen_answer : answer;
}.

(** What comes out of the blocking [accept()]. *)
Inductive arrival :=
  | AcceptRaise (e : exn)
      (* [accept()] raises *)
  | StopCalled
      (* another thread calls [stop()]: [accept()] raises on the closed socket *)
  | Accepted (id : nat) (c : Server.conn)
             (context_answer handshake_answer thread_answer : answer).
      (* a connection, with what [_setup_tls_context], the handshake and
         the thread start will answer *)

(** Lines 68-85: the body of the inner [try]. *)
Definition accept_body (use_tls : bool) (a : arrival) : Eff server unit :=
  match a with
  | AcceptRaise e => raise e
  | StopCalled => stop;; raise OSError
  | Accepted id c context_answer handshake_answer thread_answer =>
      set_conn id true;;
      print (LineNewConnection id);;
      (if use_tls then
         check context_answer;;
         wrap_socket handshake_answer id;;
         print (LineHandshake id)
       else mret tt);;
      start_thread thread_answer id c
  end.

Inductive flow := Continue | Break.

(** Lines 67-92: one turn of the loop, with its two [except] clauses. *)
Definition turn (use_tls : bool) (a : arrival) : Eff server flow :=
  fun s =>
    match accept_body use_tls a s with
    | (inr _, s') => (inr Continue, s')
    | (inl KeyboardInterrupt, s') => (print LineStopping;; mret Break) s'
    | (inl e, s') =>
        ((if running s' then print (LineAcceptError e) else mret tt);;
         mret Continue) s'
    end.

(** Lines 55-64 and 94-97: start-up.  When it goes through, the thread
    enters the loop and blocks in [accept()]; when it raises, the failure
    is printed and the [finally] clause stops the server. *)
Definition start (b : boot) : Eff server unit :=
  fun s =>
    match try_except
            (check (create_answer b);;
             set_listener (Some true);;
             check (bind_answer b);;
             check (listen_answer b);;
             set_running true;;
             print LineStarted;;
             print LineWaiting;;
             mret true)
            (fun e => print (LineStartFailed e);; mret false) s with
    | (inr true, s') => set_position AtAccept s'
    | (_, s') => (stop;; set_position Exited) s'
    end.

(** Something arrives at [accept()]: the turn of the loop it causes,
    then the test of [while self.running]; leaving the loop runs the
    [finally] clause. *)
Definition arrive (use_tls : bool) (a : arrival) : Eff server unit :=
  fun s =>
    match position_of s with
    | AtAccept =>
        match turn use_tls a s with
        | (inr Continue, s') =>
            if running s' then (inr tt, s')
            else (stop;; set_position Exited) s'
        | (_, s') => (stop;; set_position Exited) s'
        end
    | _ => (inr tt, s)
    end.

(** A started handler thread runs [_handle_client] to its end. *)
Definition run_handler (use_tls : bool) (ev : Server.env) (id : nat) (s : server) : server :=
  match list_find (fun t => t.1 = id) (threads s) with
  | None => s
  | Some (i, (_, c)) =>
      let '(_, h) := Server._handle_client use_tls ev c (Server.fresh (disk s)) in
      {| running := running s; listener := listener s;
         position_of := position_of s;
         conns := if Server.closed h then <[id := false]> (conns s) else conns s;
         threads := delete i (threads s);
         finished := finished s ++ [(id, h)];
         disk := Server.files h;
         console := console s |}
  end.

Inductive action :=
  | Start (b : boot)
  | Arrive (a : arrival)
  | Run (id : nat).

Definition step (use_tls : bool) (ev : Server.env) (act : action) (s : server) : server :=
  match act with
  | Start b => match position_of s with
               | NotStarted => (start b s).2
               | _ => s
               end
  | Arrive a => (arrive use_tls a s).2
  | Run id => run_handler use_tls ev id s
  end.

Definition exec (use_tls : bool) (ev : Server.env) (schedule : list action) (s : server) : server :=
  foldl (fun s act => step use_tls ev act s) s schedule.

Definition boot_went_through (b : boot) : bool :=
  match create_answer b, bind_answer b, listen_answer b with
  | None, None, None => true
  | _, _, _ => false
  end.

(** Arrivals that are a connection, whatever becomes of it, or an error
    of [accept()]: neither the operator's interrupt nor a call of
    [stop()]. *)
Definition per_connection (a : arrival) : bool :=
  match a with
  | AcceptRaise e => is_exception e
  | StopCalled => false
  | Accepted _ _ x y z =>
      is_exception_answer x && is_exception_answer y && is_exception_answer z
  end.

(** The steps of a server that has started and is left alone by its
    operator: arrivals as above, and runs of handler threads. *)
Definition connection_step (act : action) : bool :=
  match act with
  | Start _ => false
  | Arrive a => per_connection a
  | Run _ => true
  end.

End Acceptor.

(** ** Concrete machines and connections, for the examples *)

Module Samples.

Import Py.

(** A machine on which every file operation goes through and whose
    [int] knows no digits or spaces beyond ASCII. *)
Definition ev0 : Server.env :=
  {| Server.unicode_int := fun _ => None;
     Server.open_answer := fun _ => None;
     Server.write_answer := fun _ _ => None |}.

(** A peer that sends the given chunks, closes its sending side and
    still reads. *)
Definition peer (chunks : list bytes) : Server.conn :=
  {| Server.incoming := map Server.RecvData chunks;
     Server.sendall_answer := None |}.

Definition boot_ok : Acceptor.boot :=
  {| Acceptor.create_answer := None;
     Acceptor.bind_answer := None;
     Acceptor.listen_answer := None |}.

(** A client machine on which everything goes through; the file holds
    two lines with a CR LF between them. *)
Definition cenv_ok : Client.env :=
  {| Client.create_answer := None;
     Client.context_answer := None;
     Client.connect_answer := None;
     Client.handshake_answer := None;
     Client.file_exists := fun _ => true;
     Client.file_bytes := fun _ => inr (lit "one" ++ [x0d; x0a] ++ lit "two");
     Client.sendall_answer := fun _ => None;
     Client.recv_answer := inr Server.ACK;
     Client.clock := fun n => match n with O => 10.5%float | _ => 12.25%float end |}.

(** Nobody listens on the port. *)
Definition cenv_refused : Client.env :=
  {| Client.create_answer := None;
     Client.context_answer := None;
     Client.connect_answer := Some ConnectionRefusedError;
     Client.handshake_answer := None;
     Client.file_exists := Client.file_exists cenv_ok;
     Client.file_bytes := Client.file_bytes cenv_ok;
     Client.sendall_answer := Client.sendall_answer cenv_ok;
     Client.recv_answer := Client.recv_answer cenv_ok;
     Client.clock := Client.clock cenv_ok |}.

(** The TCP connection is made and the TLS handshake fails. *)
Definition cenv_bad_handshake : Client.env :=
  {| Client.create_answer := None;
     Client.context_answer := None;
     Client.connect_answer := None;
     Client.handshake_answer := Some SSLError;
     Client.file_exists := Client.file_exists cenv_ok;
     Client.file_bytes := Client.file_bytes cenv_ok;
     Client.sendall_answer := Client.sendall_answer cenv_ok;
     Client.recv_answer := Client.recv_answer cenv_ok;
     Client.clock := Client.clock cenv_ok |}.

(** The header goes out and the connection breaks under the payload. *)
Definition cenv_broken : Client.env :=
  {| Client.create_answer := None;
     Client.context_answer := None;
     Client.connect_answer := None;
     Client.handshake_answer := None;
     Client.file_exists := Client.file_exists cenv_ok;
     Client.file_bytes := Client.file_bytes cenv_ok;
     Client.sendall_answer := fun n => match n with 1%nat => Some OSError | _ => None end;
     Client.recv_answer := Client.recv_answer cenv_ok;
     Client.clock := Client.clock cenv_ok |}.

(** A client that has connected without TLS. *)
Definition connected : Client.state :=
  (Client.connect_plain cenv_ok Client.init).2.

Definition some_path : text := lit "docs/teste.txt".

(** A TLS server that has started and met: a failed handshake, a
    connection whose transfer is cut short, the run of its handler, and
    an error of [accept()]. *)
Definition rough_schedule : list Acceptor.action :=
  [Acceptor.Arrive (Acceptor.Accepted 0 (peer [lit "a|9|x"]) None (Some SSLError) None);
   Acceptor.Arrive (Acceptor.Accepted 1 (peer [lit "a|9|x"]) None None None);
   Acceptor.Run 1;
   Acceptor.Arrive (Acceptor.AcceptRaise OSError)].

(** A plain server that has started and accepted one connection, whose
    handler has not run yet. *)
Definition one_accepted : Acceptor.server :=
  Acceptor.exec false ev0
    [Acceptor.Start boot_ok;
     Acceptor.Arrive (Acceptor.Accepted 0 (peer [lit "a|1|x"]) None None None)]
    (Acceptor.init ∅).

End Samples.

(** ** Predicates and helpers for the further properties *)

Module ServerMore.
Import Py Server.

(** The state after the handler has printed some more lines. *)
Definition add_lines (lines : list log_line) (s : state) : state :=
  {| files := files s; sent := sent s; closed := closed s;
     printed := printed s ++ lines |}.

(** The path the handler writes for a declared name. *)
Definition path_for (use_tls : bool) (name : text) : text :=
  lit "received_files/" ++ protocol use_tls ++ lit "_" ++ name.

(** What a handler has done to the disk: nothing, or one file set. *)
Definition apply_write (o : option (text * bytes)) (fs : gmap text bytes)
    : gmap text bytes :=
  match o with
  | None => fs
  | Some (p, v) => <[p := v]> fs
  end.


(** The connection delivers a complete frame: a decodable header
    [name|field|] whose size field [int] takes for a size that is not
    negative, then at least that many bytes, of which [content] are the
    first ones. *)
Definition delivers (ev : env) (c : conn) (name : text) (content : bytes) : Prop :=
  exists chunks more field rest size,
    incoming c = map RecvData chunks ++ more
    /\ Forall (fun k => k <> []) chunks
    /\ concat chunks = name ++ DELIM :: field ++ DELIM :: rest
    /\ (DELIM ∉ name) /\ (DELIM ∉ field)
    /\ utf8_valid (name ++ DELIM :: field ++ [DELIM]) = true
    /\ int (unicode_int ev) field = inr size
    /\ 0 <= size <= len rest
    /\ content = take (Z.to_nat size) rest.

(** What has come in when the connection breaks is short of a frame:
    fewer than two delimiters, or a good header and fewer payload bytes
    than it declares. *)
Definition short_of_a_frame (ev : env) (stream : bytes) : Prop :=
  few_delims stream
  \/ (exists a b rest size,
       stream = a ++ DELIM :: b ++ DELIM :: rest
       /\ (DELIM ∉ a) /\ (DELIM ∉ b)
       /\ utf8_valid (a ++ DELIM :: b ++ [DELIM]) = true
       /\ int (unicode_int ev) b = inr size
       /\ len rest < size).


(** The line is not the report of a caught exception. *)
Definition no_error_line (l : log_line) : Prop :=
  match l with LogError _ => False | _ => True end.

End ServerMore.

Module ClientMore.
Import Py Client.

(** The messages among some events. *)
Definition messages (tr : list event) : list event := List.filter is_sendall tr.

(** What [send_file] may have put on the wire: nothing, the header, or
    the header and then the content. *)
Definition wire_shape (ev : env) (filepath : text) (new : list event) : Prop :=
  new = []
  \/ (exists raw,
       file_bytes ev filepath = inr raw
       /\ utf8_valid raw = true
       /\ (new = [EvSendall (make_header (basename filepath)
                               (length (universal_newlines raw)))]
           \/ new = [EvSendall (make_header (basename filepath)
                                  (length (universal_newlines raw)));
                     EvSendall (universal_newlines raw)])).

(** The bytes the [sendall] calls among some events put on the wire. *)
Definition wire (tr : list event) : bytes :=
  concat (omap (fun e => match e with EvSendall msg => Some msg | _ => None end) tr).

End ClientMore.

(** ** The client's [main] *)

Module ClientMain.
Import Py Client.

(** What can end [main]: an exception that came up from below, a local
    variable read before it was assigned, a division by zero. *)
Inductive failure :=
  | Propagated (e : exn)
  | UnboundLocalError (var : String.string)
  | ZeroDivisionError.

Definition test_file : text := lit "teste.txt".

(** ["Este é um arquivo de teste para transferência.\n" * 100], encoded. *)
Definition test_content : bytes :=
  concat (replicate 100 (lit "Este é um arquivo de teste para transferência." ++ [x0a])).

(** The machine [main] runs on: the answer to the writing of the test
    file, and the network as each of the two clients meets it. *)
Record machine := {
  write_answer : answer;
  plain_side : env;
  tls_side : env;
}.

(** The file that [main] has just written is there to be read. *)
Definition with_test_file (ev : env) : env :=
  {| create_answer := create_answer ev;
     context_answer := context_answer ev;
     connect_answer := connect_answer ev;
     handshake_answer := handshake_answer ev;
     file_exists := fun p => if decide (p = test_file) then true else file_exists ev p;
     file_bytes := fun p => if decide (p = test_file) then inr test_content else file_bytes ev p;
     sendall_answer := sendall_answer ev;
     recv_answer := recv_answer ev;
     clock := clock ev |}.

(** [close]: tells whether there was a socket to close. *)
Definition close (s : state) : bool :=
  match socket s with
  | Some _ => true
  | None => false
  end.

(** What one of the two tests leaves: the local variable with the
    statistics, when it was assigned, whether the socket was closed, and
    the client object. *)
Record test_run := {
  stats_var : option stats;
  socket_closed : bool;
  client : state;
}.

(** Lines 149-153 and 160-164: [if client.connect...(): send_file;
    get_stats; close]. *)
Definition run_test (connect : Eff state bool) (ev : env) : (exn + unit) * test_run :=
  match connect init with
  | (inl e, s1) =>
      (inl e, {| stats_var := None; socket_closed := false; client := s1 |})
  | (inr false, s1) =>
      (inr tt, {| stats_var := None; socket_closed := false; client := s1 |})
  | (inr true, s1) =>
      match send_file ev test_file s1 with
      | (inl e, s2) =>
          (inl e, {| stats_var := None; socket_closed := false; client := s2 |})
      | (inr _, s2) =>
          (inr tt, {| stats_var := Some (get_stats s2);
                      socket_closed := close s2; client := s2 |})
      end
  end.

(** Lines 170-172: the three lines of the comparison; the value is the
    time overhead in percent. *)
Definition compare (stats_plain stats_tls : option stats) : failure + float :=
  match stats_plain with
  | None => inl (UnboundLocalError "stats_plain")
  | Some p =>
      match stats_tls with
      | None => inl (UnboundLocalError "stats_tls")
      | Some t =>
          if PrimFloat.eqb (transfer_time p) 0%float then inl ZeroDivisionError
          else inr (PrimFloat.mul
                      (PrimFloat.div
                         (PrimFloat.sub (transfer_time t) (transfer_time p))
                         (transfer_time p))
                      100%float)
      end
  end.

(** [main]: the result, and what the two tests left (when they ran). *)
Definition main (m : machine)
    : (failure + float) * option test_run * option test_run :=
  match write_answer m with
  | Some e => (inl (Propagated e), None, None)
  | None =>
      match run_test (connect_plain (with_test_file (plain_side m)))
                     (with_test_file (plain_side m)) with
      | (inl e, p) => (inl (Propagated e), Some p, None)
      | (inr _, p) =>
          match run_test (connect_tls (with_test_file (tls_side m)))
                         (with_test_file (tls_side m)) with
          | (inl e, t) => (inl (Propagated e), Some p, Some t)
          | (inr _, t) => (compare (stats_var p) (stats_var t), Some p, Some t)
          end
      end
  end.

End ClientMain.

Module AcceptorMore.
Import Py Acceptor.

(** The step accepts a connection under the identifier [id]. *)
Definition accepts (id : nat) (act : action) : bool :=
  match act with
  | Arrive (Accepted id' _ _ _ _) => bool_decide (id' = id)
  | _ => false
  end.

(** The arrival is a connection that never gets a handler: in TLS mode
    the loading of the certificate fails, or the thread cannot be
    started. *)
Definition never_handled (use_tls : bool) (a : arrival) : bool :=
  match a with
  | Accepted _ _ context_answer handshake_answer thread_answer =>
      if use_tls then
        match context_answer, handshake_answer, thread_answer with
        | Some _, _, _ => true
        | None, None, Some _ => true
        | _, _, _ => false
        end
      else
        match thread_answer with Some _ => true | None => false end
  | _ => false
  end.

(** The socket [id] is open and no started handler serves it. *)
Definition orphan (id : nat) (s : server) : Prop :=
  conns s !! id = Some true /\ id ∉ (threads s).*1.

(** Once [start] has returned, [running] is unset and the listening
    socket is not open. *)
Definition stopped (s : server) : Prop :=
  position_of s = Exited -> running s = false /\ listener s <> Some true.

End AcceptorMore.

(** ** More machines and connections, for the examples *)

Module MoreSamples.

Import Py Samples.

(** A server machine on which no file can be opened. *)
Definition ev_no_open : Server.env :=
  {| Server.unicode_int := fun _ => None;
     Server.open_answer := fun _ => Some OSError;
     Server.write_answer := fun _ _ => None |}.

(** A server machine whose disk is full. *)
Definition ev_no_write : Server.env :=
  {| Server.unicode_int := fun _ => None;
     Server.open_answer := fun _ => None;
     Server.write_answer := fun _ _ => Some OSError |}.

(** A peer that sends the given chunks and is gone when the
    acknowledgement is sent. *)
Definition peer_gone (chunks : list bytes) : Server.conn :=
  {| Server.incoming := map Server.RecvData chunks;
     Server.sendall_answer := Some OSError |}.

(** A peer whose connection is reset after the given chunks. *)
Definition peer_reset (chunks : list bytes) : Server.conn :=
  {| Server.incoming := map Server.RecvData chunks ++ [Server.RecvRaise OSError];
     Server.sendall_answer := None |}.

Definition three_chunks : list bytes := [lit "a.txt|3"; lit "|ab"; lit "cde"].

(** Both servers are there. *)
Definition both_up : ClientMain.machine :=
  {| ClientMain.write_answer := None;
     ClientMain.plain_side := cenv_ok;
     ClientMain.tls_side := cenv_ok |}.

(** The plain server is not there. *)
Definition plain_down : ClientMain.machine :=
  {| ClientMain.write_answer := None;
     ClientMain.plain_side := cenv_refused;
     ClientMain.tls_side := cenv_ok |}.

(** The plain connection breaks under the payload. *)
Definition plain_breaks : ClientMain.machine :=
  {| ClientMain.write_answer := None;
     ClientMain.plain_side := cenv_broken;
     ClientMain.tls_side := cenv_ok |}.

(** A start-up in which the port is taken. *)
Definition boot_port_taken : Acceptor.boot :=
  {| Acceptor.create_answer := None;
     Acceptor.bind_answer := Some OSError;
     Acceptor.listen_answer := None |}.

End MoreSamples.

(** * Facts about the Python primitives *)

Module PyFacts.

Import Py.

Lemma eqb_eq (a b : byte) : Byte.eqb a b = true <-> a = b.
Proof.
  split; [apply Byte.byte_dec_bl | apply Byte.byte_dec_lb].
Qed.

Lemma eqb_neq (a b : byte) : Byte.eqb a b = false <-> a <> b.
Proof.
  split.
  - apply Byte.eqb_false.
  - intros Hne. destruct (Byte.eqb a b) eqn:E; [|reflexivity].
    apply eqb_eq in E. contradiction.
Qed.

Lemma eqb_refl (a : byte) : Byte.eqb a a = true.
Proof. by apply eqb_eq. Qed.

Lemma contains_false (sub : byte) (data : bytes) :
  contains sub data = false <-> sub ∉ data.
Proof.
  unfold contains. induction data as [|b data IH]; simpl.
  - split; [intros _; apply not_elem_of_nil | done].
  - rewrite orb_false_iff, IH, not_elem_of_cons, eqb_neq. tauto.
Qed.

Lemma contains_true (sub : byte) (data : bytes) :
  contains sub data = true <-> sub ∈ data.
Proof.
  destruct (contains sub data) eqn:E.
  - split; [intros _|done].
    destruct (decide (sub ∈ data)) as [|Hn]; [done|].
    apply contains_false in Hn. congruence.
  - apply contains_false in E. split; [done | intros; contradiction].
Qed.

Lemma contains_app (sub : byte) (a b : bytes) :
  contains sub (a ++ b) = contains sub a || contains sub b.
Proof. unfold contains. apply existsb_app. Qed.

Lemma contains_cons_same (sub : byte) (b : bytes) :
  contains sub (sub :: b) = true.
Proof. unfold contains. simpl. by rewrite eqb_refl. Qed.

Lemma len_app {A} (a b : list A) : len (a ++ b) = len a + len b.
Proof. unfold len. rewrite length_app. lia. Qed.

Lemma len_cons {A} (x : A) (a : list A) : len (x :: a) = 1 + len a.
Proof. unfold len. simpl. lia. Qed.

Lemma len_nonneg {A} (a : list A) : 0 <= len a.
Proof. unfold len. lia. Qed.

(** *** [find] *)

Lemma find_at_none (sub : byte) (data : bytes) (i : Z) :
  sub ∉ data -> find_at sub data i = -1.
Proof.
  revert i. induction data as [|b data IH]; intros i Hn; simpl; [done|].
  apply not_elem_of_cons in Hn as [Hb Hn].
  assert (Byte.eqb b sub = false) as -> by (apply eqb_neq; congruence).
  by apply IH.
Qed.

Lemma find_at_first (sub : byte) (a rest : bytes) (i : Z) :
  sub ∉ a -> find_at sub (a ++ sub :: rest) i = i + len a.
Proof.
  revert i. induction a as [|b a IH]; intros i Hn; simpl.
  - rewrite eqb_refl. unfold len. simpl. lia.
  - apply not_elem_of_cons in Hn as [Hb Hn].
    assert (Byte.eqb b sub = false) as -> by (apply eqb_neq; congruence).
    rewrite IH by done. rewrite len_cons. lia.
Qed.

Lemma clamp_nonneg (n : nat) (i : Z) :
  0 <= i -> clamp n i = Nat.min (Z.to_nat i) n.
Proof.
  intros Hi. unfold clamp.
  destruct (i <? 0) eqn:E; [|done]. apply Z.ltb_lt in E. lia.
Qed.

Lemma find_first (sub : byte) (a rest : bytes) :
  sub ∉ a -> find (a ++ sub :: rest) sub 0 = len a.
Proof.
  intros Hn. unfold find.
  rewrite clamp_nonneg by lia.
  destruct (Z.of_nat _ <? 0) eqn:E; [apply Z.ltb_lt in E; lia|].
  replace (Nat.min _ _) with 0%nat by lia.
  rewrite drop_0, find_at_first by done. lia.
Qed.

(** The search from just after the first delimiter. *)
Lemma find_from (sub : byte) (a rest : bytes) :
  find (a ++ sub :: rest) sub (len a + 1) = find_at sub rest (len a + 1).
Proof.
  unfold find, len.
  rewrite clamp_nonneg by lia.
  rewrite length_app. cbn [length].
  destruct (Z.of_nat _ <? _) eqn:E; [apply Z.ltb_lt in E; lia|].
  replace (Nat.min _ _) with (length (a ++ [sub])) by (rewrite length_app; simpl; lia).
  replace (a ++ sub :: rest) with ((a ++ [sub]) ++ rest) by (by rewrite <- app_assoc).
  rewrite drop_app_length.
  f_equal. rewrite length_app. simpl. lia.
Qed.

(** *** Slices *)

Lemma slice_to_zero {A} (data : list A) : slice_to data 0 = [].
Proof. unfold slice_to. rewrite clamp_nonneg by lia. done. Qed.

Lemma slice_to_app {A} (a b : list A) : slice_to (a ++ b) (len a) = a.
Proof.
  unfold slice_to, len. rewrite clamp_nonneg by lia.
  rewrite length_app, Nat2Z.id.
  replace (Nat.min _ _) with (length a) by lia.
  by rewrite take_app_length.
Qed.

Lemma slice_from_app {A} (a b : list A) : slice_from (a ++ b) (len a) = b.
Proof.
  unfold slice_from, len. rewrite clamp_nonneg by lia.
  rewrite length_app, Nat2Z.id.
  replace (Nat.min _ _) with (length a) by lia.
  by rewrite drop_app_length.
Qed.

Lemma slice_to_nat {A} (data : list A) (k : nat) :
  slice_to data (Z.of_nat k) = take k data.
Proof.
  unfold slice_to. rewrite clamp_nonneg by lia. rewrite Nat2Z.id.
  destruct (decide (k <= length data)%nat).
  - by replace (Nat.min _ _) with k by lia.
  - replace (Nat.min _ _) with (length data) by lia.
    rewrite !take_ge; [done | lia | lia].
Qed.

(** *** [split] *)

Lemma split_nonempty (sep : byte) (s : text) : split sep s <> [].
Proof.
  destruct s as [|c s]; simpl; [done|].
  destruct (Byte.eqb c sep); [done|]. by destruct (split sep s).
Qed.

Lemma split_no_sep (sep : byte) (s : text) :
  sep ∉ s -> split sep s = [s].
Proof.
  induction s as [|c s IH]; intros Hn; simpl; [done|].
  apply not_elem_of_cons in Hn as [Hc Hn].
  assert (Byte.eqb c sep = false) as -> by (apply eqb_neq; congruence).
  by rewrite IH.
Qed.

Lemma split_first (sep : byte) (a rest : text) :
  sep ∉ a -> split sep (a ++ sep :: rest) = a :: split sep rest.
Proof.
  induction a as [|c a IH]; intros Hn; simpl.
  - by rewrite eqb_refl.
  - apply not_elem_of_cons in Hn as [Hc Hn].
    assert (Byte.eqb c sep = false) as -> by (apply eqb_neq; congruence).
    by rewrite IH.
Qed.

(** The header [a|b|] splits into [a], [b] and an empty third part. *)
Lemma split_header (sep : byte) (a b : text) :
  sep ∉ a -> sep ∉ b -> split sep (a ++ sep :: b ++ [sep]) = [a; b; []].
Proof.
  intros Ha Hb. rewrite split_first by done.
  rewrite split_first by done. done.
Qed.

(** *** Strict UTF-8 *)

Lemma utf8_run_app (st : utf8_state) (a b : bytes) :
  utf8_run st (a ++ b) =
  match utf8_run st a with
  | Some st' => utf8_run st' b
  | None => None
  end.
Proof.
  revert st. induction a as [|c a IH]; intros st; simpl; [done|].
  destruct (utf8_step st c); [apply IH | done].
Qed.

Lemma utf8_valid_app (a b : bytes) :
  utf8_valid a = true -> utf8_valid (a ++ b) = utf8_valid b.
Proof.
  unfold utf8_valid. rewrite utf8_run_app.
  destruct (utf8_run U_start a) as [[]|]; done.
Qed.

Lemma utf8_step_ascii (b : byte) :
  is_ascii b = true -> utf8_step U_start b = Some U_start.
Proof. unfold is_ascii. simpl. by intros ->. Qed.

Lemma utf8_valid_ascii (s : bytes) :
  forallb is_ascii s = true -> utf8_valid s = true.
Proof.
  unfold utf8_valid. induction s as [|c s IH]; [done|].
  cbn [forallb utf8_run]. intros [Hc Hs]%andb_true_iff.
  rewrite (utf8_step_ascii c Hc). by apply IH.
Qed.

(** *** Decimal digits: [str] and [int] *)

Lemma digit_byte_facts (d : N) :
  (d < 10)%N ->
  digit_val (digit_byte d) = Some (Z.of_N d)
  /\ is_ascii (digit_byte d) = true
  /\ is_space (digit_byte d) = false
  /\ Byte.eqb (digit_byte d) "_" = false
  /\ Byte.eqb (digit_byte d) "+" = false
  /\ Byte.eqb (digit_byte d) "-" = false
  /\ digit_byte d <> "|"%byte.
Proof.
  intros Hd.
  assert (d = 0 \/ d = 1 \/ d = 2 \/ d = 3 \/ d = 4 \/ d = 5 \/ d = 6
          \/ d = 7 \/ d = 8 \/ d = 9)%N as Hcases by lia.
  repeat (destruct Hcases as [-> | Hcases]); try subst d;
    repeat split; try reflexivity; discriminate.
Qed.

Lemma digits_of_acc (fuel : nat) (n : N) (acc : text) :
  digits_of fuel n acc = digits_of fuel n [] ++ acc.
Proof.
  revert n acc. induction fuel as [|fuel IH]; intros n acc; simpl; [done|].
  destruct (n / 10 =? 0)%N; [done|].
  rewrite IH. rewrite (IH _ [_]). by rewrite <- app_assoc.
Qed.

Lemma digits_of_digits (fuel : nat) (n : N) :
  Forall digit (digits_of fuel n []).
Proof.
  revert n. induction fuel as [|fuel IH]; intros n; simpl; [constructor|].
  assert (digit (digit_byte (n mod 10))) as Hd.
  { exists (n mod 10)%N. split; [|done]. apply N.mod_lt. lia. }
  destruct (n / 10 =? 0)%N.
  - by constructor.
  - rewrite digits_of_acc. apply Forall_app. split; [apply IH|by constructor].
Qed.

Lemma digits_of_nonempty (fuel : nat) (n : N) :
  digits_of (S fuel) n [] <> [].
Proof.
  simpl. destruct (n / 10 =? 0)%N; [done|].
  rewrite digits_of_acc. by destruct (digits_of fuel (n / 10) []).
Qed.

Lemma scan_int_digit (d : N) (rest : text) (acc : Z) (us : bool) :
  (d < 10)%N ->
  scan_int (digit_byte d :: rest) acc us = scan_int rest (10 * acc + Z.of_N d) false.
Proof.
  intros Hd. destruct (digit_byte_facts d Hd) as (Hv & _ & _ & Hu & _).
  simpl. by rewrite Hu, Hv.
Qed.

(** Scanning the digits of [n] multiplies the accumulator by the right
    power of ten and adds [n]. *)
Lemma scan_int_digits_of (fuel : nat) (n : N) (tail : text) (acc : Z) :
  (n < 10 ^ N.of_nat fuel)%N ->
  scan_int (digits_of fuel n [] ++ tail) acc false =
  scan_int tail (acc * 10 ^ len (digits_of fuel n []) + Z.of_N n) false.
Proof.
  revert n tail acc. induction fuel as [|fuel IH]; intros n tail acc Hn.
  - simpl in *. assert (n = 0%N) as -> by lia.
    f_equal. unfold len. simpl. lia.
  - cbn [digits_of]. assert (n mod 10 < 10)%N as Hd by (apply N.mod_lt; lia).
    pose proof (N.div_mod n 10 ltac:(lia)) as Hdm.
    destruct (n / 10 =? 0)%N eqn:E.
    + apply N.eqb_eq in E. cbn [app]. rewrite scan_int_digit by done.
      f_equal. unfold len. cbn [length].
      change (Z.of_nat 1) with 1. rewrite Z.pow_1_r. lia.
    + rewrite digits_of_acc, <- app_assoc. cbn [app].
      rewrite IH.
      * rewrite scan_int_digit by done. f_equal.
        rewrite len_app. change (len [digit_byte (n mod 10)]) with 1.
        pose proof (len_nonneg (digits_of fuel (n / 10) [])) as Hk.
        rewrite Z.pow_add_r by lia. rewrite Z.pow_1_r. lia.
      * replace (N.of_nat (S fuel)) with (N.succ (N.of_nat fuel)) in Hn by lia.
        rewrite N.pow_succ_r' in Hn.
        apply N.Div0.div_lt_upper_bound. lia.
Qed.

Lemma str_of_nat_fuel (n : nat) :
  (N.of_nat n < 10 ^ N.of_nat (S (N.to_nat (N.size (N.of_nat n)))))%N.
Proof.
  set (m := N.of_nat n).
  pose proof (N.size_gt m) as Hs.
  eapply N.lt_le_trans; [exact Hs|].
  rewrite Nat2N.inj_succ, N2Nat.id.
  etransitivity; [apply (N.pow_le_mono_l 2 10); lia|].
  apply N.pow_le_mono_r; lia.
Qed.

Lemma str_of_nat_digits (n : nat) : Forall digit (str_of_nat n).
Proof. apply digits_of_digits. Qed.

Lemma digit_not_delim (s : text) : Forall digit s -> "|"%byte ∉ s.
Proof.
  intros Hs Hin. rewrite Forall_forall in Hs.
  destruct (Hs _ Hin) as (d & Hd & Heq).
  destruct (digit_byte_facts d Hd) as (_ & _ & _ & _ & _ & _ & Hne). congruence.
Qed.

Lemma digit_ascii (s : text) : Forall digit s -> forallb is_ascii s = true.
Proof.
  induction 1 as [|b s (d & Hd & ->) _ IH]; simpl; [done|].
  destruct (digit_byte_facts d Hd) as (_ & -> & _). done.
Qed.

(** [int(str(n)) == n] *)
Lemma int_ascii_str_of_nat (n : nat) :
  int_ascii (str_of_nat n) = Some (Z.of_nat n).
Proof.
  pose proof (str_of_nat_digits n) as Hds.
  pose proof (scan_int_digits_of _ _ [] 0 (str_of_nat_fuel n)) as Hscan.
  rewrite app_nil_r in Hscan. fold (str_of_nat n) in Hscan.
  unfold int_ascii.
  destruct (str_of_nat n) as [|b s] eqn:Hstr.
  { by apply digits_of_nonempty in Hstr. }
  apply Forall_cons in Hds as [(d & Hd & ->) _].
  destruct (digit_byte_facts d Hd) as (Hv & _ & Hsp & _ & Hplus & Hminus & _).
  cbn [lstrip]. rewrite Hsp, Hplus, Hminus, Hv, Hscan.
  simpl. f_equal. lia.
Qed.

Lemma int_str_of_nat (unicode_int : text -> option Z) (n : nat) :
  int unicode_int (str_of_nat n) = inr (Z.of_nat n).
Proof.
  unfold int. rewrite (digit_ascii _ (str_of_nat_digits n)).
  by rewrite int_ascii_str_of_nat.
Qed.

End PyFacts.

(** * Facts about the receive loop *)

Module ServerFacts.

Import Py PyFacts Server Samples.

Section Header.

Context (ev : env).

Lemma process_header_done (st : locals) (s : state) :
  header_received st = true -> process_header ev st s = (inr st, s).
Proof. intros H. unfold process_header. rewrite H. done. Qed.

Lemma process_header_none (st : locals) (s : state) :
  DELIM ∉ data st -> process_header ev st s = (inr st, s).
Proof.
  intros H%contains_false. unfold process_header.
  rewrite H, andb_false_r. done.
Qed.

Lemma process_header_one (st : locals) (a b : bytes) (s : state) :
  data st = a ++ DELIM :: b -> DELIM ∉ a -> DELIM ∉ b ->
  process_header ev st s = (inr st, s).
Proof.
  intros Hd Ha Hb. unfold process_header.
  destruct (negb (header_received st) && contains DELIM (data st)); [|done].
  rewrite Hd, find_first by done.
  rewrite find_from, find_at_none by done.
  change (-1 + 1) with 0. rewrite slice_to_zero.
  done.
Qed.

Lemma process_header_two (st : locals) (a b tail : bytes) (s : state) :
  header_received st = false ->
  data st = a ++ DELIM :: b ++ DELIM :: tail -> DELIM ∉ a -> DELIM ∉ b ->
  process_header ev st s =
  match decode_utf8 (a ++ DELIM :: b ++ [DELIM]) with
  | inl e => (inl e, s)
  | inr _ =>
      match int (unicode_int ev) b with
      | inl e => (inl e, s)
      | inr size =>
          (inr {| data := tail; header_received := true;
                  filename := a; filesize := size |},
           (print (LogReceiving a size) s).2)
      end
  end.
Proof.
  intros Hhr Hd Ha Hb. unfold process_header.
  rewrite Hhr, Hd. cbn [negb andb].
  rewrite contains_app, contains_cons_same, orb_true_r.
  rewrite find_first by done.
  rewrite find_from, find_at_first by done.
  set (hdr := a ++ DELIM :: b ++ [DELIM]).
  assert (a ++ DELIM :: b ++ DELIM :: tail = hdr ++ tail) as ->.
  { unfold hdr. rewrite <- !app_assoc. simpl. by rewrite <- app_assoc. }
  assert (len a + 1 + len b + 1 = len hdr) as ->.
  { unfold hdr. rewrite len_app, len_cons, len_app. unfold len. simpl. lia. }
  rewrite slice_to_app, slice_from_app.
  eff. unfold decode_utf8.
  destruct (utf8_valid hdr); [|done].
  unfold hdr. rewrite split_header by done.
  cbn [len length item nth]. cbn [Z.leb Z.of_nat Pos.of_succ_nat Pos.succ Z.compare Pos.compare Pos.compare_cont].
  destruct (int (unicode_int ev) b); done.
Qed.

Lemma not_elem_of_take {A} (x : A) (n : nat) (l : list A) :
  x ∉ l -> x ∉ take n l.
Proof.
  intros Hn Hin. apply Hn. apply elem_of_take in Hin as (i & Hi & _).
  by eapply list_elem_of_lookup_2.
Qed.

Lemma app_eq_longer {A} (x y h r : list A) :
  x ++ y = h ++ r -> (length h <= length x)%nat ->
  exists tail, x = h ++ tail /\ r = tail ++ y.
Proof.
  intros Heq Hlen. exists (drop (length h) x). split.
  - rewrite <- (take_drop (length h) x) at 1. f_equal.
    rewrite <- (take_app_le x y) by done. rewrite Heq. apply take_app_length.
  - rewrite <- (drop_app_length h r), <- Heq. by rewrite drop_app_le.
Qed.

Lemma app_eq_shorter {A} (x y h r : list A) :
  x ++ y = h ++ r -> (length x <= length h)%nat -> x = take (length x) h.
Proof.
  intros Heq Hlen.
  rewrite <- (take_app_le h r) by done. rewrite <- Heq.
  by rewrite take_app_length.
Qed.

Lemma few_delims_prefix (x y : bytes) :
  few_delims (x ++ y) -> few_delims x.
Proof.
  intros [Hn | (a & b & Heq & Ha & Hb)].
  - left. apply not_elem_of_app in Hn. tauto.
  - destruct (decide (length x <= length a)%nat) as [Hle|Hgt].
    + left. rewrite (app_eq_shorter _ _ _ _ Heq Hle).
      by apply not_elem_of_take.
    + replace (a ++ DELIM :: b) with ((a ++ [DELIM]) ++ b) in Heq
        by (by rewrite <- app_assoc).
      destruct (app_eq_longer _ _ _ _ Heq) as (tail & -> & ->).
      { rewrite length_app. simpl. lia. }
      right. exists a, tail. rewrite <- app_assoc. split; [done|].
      split; [done|]. apply not_elem_of_app in Hb. tauto.
Qed.

(** A strict prefix of the header [a|b|] holds fewer than two
    delimiters. *)
Lemma header_prefix_few (x y a b rest : bytes) :
  x ++ y = a ++ DELIM :: b ++ DELIM :: rest ->
  (length x < length a + length b + 2)%nat ->
  DELIM ∉ a -> DELIM ∉ b -> few_delims x.
Proof.
  intros Heq Hlen Ha Hb.
  destruct (decide (length x <= length a)%nat) as [Hle|Hgt].
  - left. rewrite (app_eq_shorter _ _ _ _ Heq Hle). by apply not_elem_of_take.
  - replace (a ++ DELIM :: b ++ DELIM :: rest)
      with ((a ++ [DELIM]) ++ b ++ DELIM :: rest) in Heq
      by (by rewrite <- app_assoc).
    destruct (app_eq_longer _ _ _ _ Heq) as (tail & -> & Heq').
    { rewrite length_app. simpl. lia. }
    right. exists a, tail. rewrite <- app_assoc. split; [done|].
    split; [done|].
    symmetry in Heq'.
    rewrite (app_eq_shorter _ _ _ _ Heq').
    + by apply not_elem_of_take.
    + rewrite !length_app in Hlen. simpl in Hlen. lia.
Qed.

Lemma process_header_waits (st : locals) (s : state) :
  few_delims (data st) -> process_header ev st s = (inr st, s).
Proof.
  intros [Hn | (a & b & Hd & Ha & Hb)].
  - by apply process_header_none.
  - by eapply process_header_one.
Qed.

Lemma set_data_same (st : locals) : set_data st (data st) = st.
Proof. by destruct st. Qed.

Lemma set_data_set_data (st : locals) (d d' : bytes) :
  set_data (set_data st d) d' = set_data st d'.
Proof. done. Qed.

(** While fewer than two delimiters have come in, the loop only
    accumulates. *)
Lemma recv_loop_waits (chunks : list bytes) (more : list recv_event)
    (st : locals) (s : state) :
  header_received st = false ->
  Forall (fun c => c <> []) chunks ->
  few_delims (data st ++ concat chunks) ->
  recv_loop ev (map RecvData chunks ++ more) st s =
  recv_loop ev more (set_data st (data st ++ concat chunks)) s.
Proof.
  revert st. induction chunks as [|c chunks IH]; intros st Hhr Hne Hfew.
  - simpl. by rewrite app_nil_r, set_data_same.
  - apply Forall_cons in Hne as [Hc Hne].
    destruct c as [|x c]; [done|].
    cbn [map app recv_loop concat] in *.
    set (st1 := set_data st (data st ++ x :: c)).
    assert (few_delims (data st1)) as Hfew1.
    { unfold st1. cbn [data set_data].
      eapply few_delims_prefix. rewrite <- app_assoc. exact Hfew. }
    eff. rewrite (process_header_waits st1 s Hfew1).
    assert (header_received st1 = false) as -> by done.
    cbn [andb].
    rewrite IH; [|done|done|].
    + unfold st1. cbn [data set_data]. by rewrite <- app_assoc.
    + unfold st1. cbn [data set_data]. by rewrite <- app_assoc.
Qed.

(** The chunk that brings in the second delimiter: the header is parsed
    and what follows it is kept as payload. *)
Lemma recv_loop_header (c : bytes) (more : list recv_event)
    (st : locals) (s : state) (a b tail : bytes) :
  header_received st = false ->
  c <> [] ->
  data st ++ c = a ++ DELIM :: b ++ DELIM :: tail ->
  DELIM ∉ a -> DELIM ∉ b ->
  recv_loop ev (RecvData c :: more) st s =
  match decode_utf8 (a ++ DELIM :: b ++ [DELIM]) with
  | inl e => (inl e, s)
  | inr _ =>
      match int (unicode_int ev) b with
      | inl e => (inl e, s)
      | inr size =>
          let st' := {| data := tail; header_received := true;
                        filename := a; filesize := size |} in
          let s' := (print (LogReceiving a size) s).2 in
          if size <=? len tail then (inr st', s')
          else recv_loop ev more st' s'
      end
  end.
Proof.
  intros Hhr Hc Hd Ha Hb.
  destruct c as [|x c]; [done|].
  cbn [recv_loop]. eff.
  rewrite (process_header_two _ a b tail) by done.
  destruct (decode_utf8 _); [done|].
  destruct (int _ _); [done|].
  cbn [header_received filesize data andb].
  by destruct (_ <=? _).
Qed.

(** Once the header is in, the loop accumulates until the declared size
    is reached or the stream ends. *)
Lemma recv_loop_payload (chunks : list bytes) (more : list recv_event)
    (st : locals) (s : state) :
  header_received st = true ->
  len (data st) < filesize st ->
  Forall (fun c => c <> []) chunks ->
  let all := data st ++ concat chunks in
  (filesize st <= len all ->
   exists k : nat,
     filesize st <= Z.of_nat k /\ (k <= length all)%nat /\
     recv_loop ev (map RecvData chunks ++ more) st s =
     (inr (set_data st (take k all)), s))
  /\ (len all < filesize st ->
      recv_loop ev (map RecvData chunks ++ more) st s =
      recv_loop ev more (set_data st all) s).
Proof.
  revert st. induction chunks as [|c chunks IH]; intros st Hhr Hlt Hne all.
  - unfold all. simpl. rewrite app_nil_r. split; [lia|].
    intros _. by rewrite set_data_same.
  - apply Forall_cons in Hne as [Hc Hne].
    destruct c as [|x c]; [done|].
    set (st1 := set_data st (data st ++ x :: c)).
    assert (recv_loop ev (map RecvData ((x :: c) :: chunks) ++ more) st s =
            if filesize st <=? len (data st1) then (inr st1, s)
            else recv_loop ev (map RecvData chunks ++ more) st1 s) as Hstep.
    { cbn [map app recv_loop]. eff. fold st1.
      rewrite (process_header_done st1 s) by done.
      assert (header_received st1 = true) as -> by done.
      assert (filesize st1 = filesize st) as -> by done.
      cbn [andb]. by destruct (_ <=? _). }
    assert (all = data st1 ++ concat chunks) as Hall.
    { unfold all, st1. cbn [concat data set_data]. by rewrite <- app_assoc. }
    destruct (filesize st <=? len (data st1)) eqn:E.
    + apply Z.leb_le in E. split.
      * intros _. exists (length (data st1)). split; [exact E|]. split.
        { rewrite Hall, length_app. lia. }
        etransitivity; [exact Hstep|]. rewrite Hall, take_app_length. done.
      * intros Hlt'. rewrite Hall, len_app in Hlt'.
        pose proof (len_nonneg (concat chunks)). lia.
    + apply Z.leb_gt in E.
      destruct (IH st1) as [IH1 IH2]; [done|done|done|].
      rewrite Hall. split.
      * intros Hle. destruct (IH1 Hle) as (k & Hk1 & Hk2 & Hk3).
        exists k. split; [done|]. split; [done|].
        etransitivity; [exact Hstep|]. exact Hk3.
      * intros Hlt'. etransitivity; [exact Hstep|]. exact (IH2 Hlt').
Qed.

(** Where, in a chunked stream that starts with the header [a|b|], the
    header becomes complete. *)
Lemma header_crossing (chunks : list bytes) (d a b rest : bytes) :
  (length d < length a + length b + 2)%nat ->
  d ++ concat chunks = a ++ DELIM :: b ++ DELIM :: rest ->
  exists pre c post tail,
    chunks = pre ++ c :: post
    /\ (length (d ++ concat pre) < length a + length b + 2)%nat
    /\ (d ++ concat pre) ++ c = a ++ DELIM :: b ++ DELIM :: tail
    /\ rest = tail ++ concat post.
Proof.
  revert d. induction chunks as [|c chunks IH]; intros d Hlen Heq.
  - simpl in Heq. rewrite app_nil_r in Heq. subst d.
    rewrite !length_app in Hlen. simpl in Hlen. rewrite length_app in Hlen.
    simpl in Hlen. lia.
  - destruct (decide (length (d ++ c) < length a + length b + 2)%nat) as [Hlt|Hge].
    + destruct (IH (d ++ c) Hlt) as (pre & c' & post & tail & -> & H1 & H2 & H3).
      { rewrite <- app_assoc. exact Heq. }
      exists (c :: pre), c', post, tail. cbn [concat].
      rewrite !app_assoc in *. done.
    + exists [], c, chunks.
      cbn [concat] in *. rewrite app_nil_r.
      replace (a ++ DELIM :: b ++ DELIM :: rest)
        with ((a ++ DELIM :: b ++ [DELIM]) ++ rest) in Heq.
      2:{ rewrite <- !app_assoc. simpl. by rewrite <- app_assoc. }
      rewrite app_assoc in Heq.
      destruct (app_eq_longer _ _ _ _ Heq) as (tail & Htail & Hrest).
      { rewrite !length_app. simpl. rewrite length_app in *. simpl. lia. }
      exists tail. split; [done|]. split; [done|]. split; [|done].
      rewrite Htail. rewrite <- !app_assoc. simpl. by rewrite <- app_assoc.
Qed.

(** The loop, started on a chunked stream that begins with a header
    [a|b|], gets to the chunk that completes the header. *)
Lemma recv_loop_reaches_header (chunks : list bytes) (more : list recv_event)
    (s : state) (a b rest : bytes) :
  Forall (fun c => c <> []) chunks ->
  concat chunks = a ++ DELIM :: b ++ DELIM :: rest ->
  DELIM ∉ a -> DELIM ∉ b ->
  exists post tail,
    Forall (fun c => c <> []) post
    /\ rest = tail ++ concat post
    /\ recv_loop ev (map RecvData chunks ++ more) init_locals s =
       match decode_utf8 (a ++ DELIM :: b ++ [DELIM]) with
       | inl e => (inl e, s)
       | inr _ =>
           match int (unicode_int ev) b with
           | inl e => (inl e, s)
           | inr size =>
               let st' := {| data := tail; header_received := true;
                             filename := a; filesize := size |} in
               let s' := (print (LogReceiving a size) s).2 in
               if size <=? len tail then (inr st', s')
               else recv_loop ev (map RecvData post ++ more) st' s'
           end
       end.
Proof.
  intros Hne Hcat Ha Hb.
  destruct (header_crossing chunks [] a b rest) as
    (pre & c & post & tail & -> & Hlen & Hc & Hrest).
  { simpl. lia. }
  { exact Hcat. }
  cbn [app] in Hlen, Hc.
  apply Forall_app in Hne as [Hpre [Hcne Hpost]%Forall_cons].
  exists post, tail. split; [done|]. split; [done|].
  rewrite map_app, <- app_assoc. cbn [map app].
  rewrite recv_loop_waits; [|done|done|].
  - apply recv_loop_header; done.
  - cbn [data init_locals app].
    eapply header_prefix_few; [exact Hc|done..].
Qed.

(** A stream that carries the whole frame: the loop ends with the
    header parsed and a prefix of the payload, at least [size] long, in
    the buffer. *)
Lemma recv_loop_complete (chunks : list bytes) (more : list recv_event)
    (s : state) (a b rest : bytes) (size : Z) :
  Forall (fun c => c <> []) chunks ->
  concat chunks = a ++ DELIM :: b ++ DELIM :: rest ->
  DELIM ∉ a -> DELIM ∉ b ->
  utf8_valid (a ++ DELIM :: b ++ [DELIM]) = true ->
  int (unicode_int ev) b = inr size ->
  size <= len rest ->
  exists k : nat,
    size <= Z.of_nat k /\ (k <= length rest)%nat /\
    recv_loop ev (map RecvData chunks ++ more) init_locals s =
    (inr {| data := take k rest; header_received := true;
            filename := a; filesize := size |},
     (print (LogReceiving a size) s).2).
Proof.
  intros Hne Hcat Ha Hb Hutf Hint Hsize.
  destruct (recv_loop_reaches_header chunks more s a b rest)
    as (post & tail & Hpost & -> & ->); [done..|].
  unfold decode_utf8. rewrite Hutf, Hint. cbn zeta.
  destruct (size <=? len tail) eqn:E.
  - apply Z.leb_le in E. exists (length tail).
    split; [exact E|]. split; [rewrite length_app; lia|].
    by rewrite take_app_length.
  - apply Z.leb_gt in E.
    set (st' := {| data := tail; header_received := true;
                   filename := a; filesize := size |}).
    destruct (recv_loop_payload post more st' (print (LogReceiving a size) s).2)
      as [H1 _]; [done|done|done|].
    destruct (H1 Hsize) as (k & Hk1 & Hk2 & Hk3).
    exists k. split; [done|]. split; [done|]. exact Hk3.
Qed.

(** A stream that ends before [size] payload bytes have come: the loop
    ends all the same, with the header parsed and the short payload. *)
Lemma recv_loop_truncated (chunks : list bytes)
    (s : state) (a b rest : bytes) (size : Z) :
  Forall (fun c => c <> []) chunks ->
  concat chunks = a ++ DELIM :: b ++ DELIM :: rest ->
  DELIM ∉ a -> DELIM ∉ b ->
  utf8_valid (a ++ DELIM :: b ++ [DELIM]) = true ->
  int (unicode_int ev) b = inr size ->
  len rest < size ->
  recv_loop ev (map RecvData chunks) init_locals s =
  (inr {| data := rest; header_received := true;
          filename := a; filesize := size |},
   (print (LogReceiving a size) s).2).
Proof.
  intros Hne Hcat Ha Hb Hutf Hint Hsize.
  destruct (recv_loop_reaches_header chunks [] s a b rest)
    as (post & tail & Hpost & -> & Hloop); [done..|].
  rewrite !app_nil_r in Hloop. rewrite Hloop. clear Hloop.
  unfold decode_utf8. rewrite Hutf, Hint. cbn zeta.
  rewrite len_app in Hsize. pose proof (len_nonneg (concat post)).
  destruct (size <=? len tail) eqn:E; [apply Z.leb_le in E; lia|].
  apply Z.leb_gt in E.
  set (st' := {| data := tail; header_received := true;
                 filename := a; filesize := size |}).
  destruct (recv_loop_payload post [] st' (print (LogReceiving a size) s).2)
    as [_ H2]; [done|done|done|].
  rewrite app_nil_r in H2. etransitivity; [apply H2|done].
  cbn [data st' filesize]. rewrite len_app. lia.
Qed.

(** A header that cannot be decoded, or whose size field is not an
    integer: the loop raises as soon as the second delimiter is in. *)
Lemma recv_loop_bad_header (chunks : list bytes) (more : list recv_event)
    (s : state) (a b rest : bytes) :
  Forall (fun c => c <> []) chunks ->
  concat chunks = a ++ DELIM :: b ++ DELIM :: rest ->
  DELIM ∉ a -> DELIM ∉ b ->
  (utf8_valid (a ++ DELIM :: b ++ [DELIM]) = false ->
   recv_loop ev (map RecvData chunks ++ more) init_locals s =
   (inl UnicodeDecodeError, s))
  /\ (forall e,
      utf8_valid (a ++ DELIM :: b ++ [DELIM]) = true ->
      int (unicode_int ev) b = inl e ->
      recv_loop ev (map RecvData chunks ++ more) init_locals s = (inl e, s)).
Proof.
  intros Hne Hcat Ha Hb.
  destruct (recv_loop_reaches_header chunks more s a b rest)
    as (post & tail & Hpost & -> & ->); [done..|].
  unfold decode_utf8. split.
  - by intros ->.
  - by intros e -> ->.
Qed.

(** A stream that ends with fewer than two delimiters in it: the loop
    ends without a header. *)
Lemma recv_loop_no_header (chunks : list bytes) (s : state) :
  Forall (fun c => c <> []) chunks ->
  few_delims (concat chunks) ->
  recv_loop ev (map RecvData chunks) init_locals s =
  (inr (set_data init_locals (concat chunks)), s).
Proof.
  intros Hne Hfew.
  pose proof (recv_loop_waits chunks [] init_locals s) as H.
  rewrite app_nil_r in H. rewrite H; done.
Qed.

End Header.

Lemma path_of_name (use_tls : bool) (name : text) :
  path_join output_dir (protocol use_tls ++ lit "_" ++ name) =
  lit "received_files/" ++ protocol use_tls ++ lit "_" ++ name.
Proof. by destruct use_tls. Qed.

(** What the handler leaves behind when the loop has ended normally. *)
Lemma handle_client_after_loop (use_tls : bool) (ev : env) (c : conn)
    (s s1 : state) (st : locals) :
  recv_loop ev (incoming c) init_locals s = (inr st, s1) ->
  _handle_client use_tls ev c s =
  try_finally
    (try_except (save_and_ack use_tls ev c st) (fun e => print (LogError e)))
    (close;; print LogConnClosed) s1.
Proof.
  intros H. unfold _handle_client, try_finally, try_except. eff.
  by rewrite H.
Qed.

Lemma handle_client_loop_raises (use_tls : bool) (ev : env) (c : conn)
    (s s1 : state) (e : exn) :
  recv_loop ev (incoming c) init_locals s = (inl e, s1) ->
  is_exception e = true ->
  _handle_client use_tls ev c s =
  (inr tt,
   {| files := files s1; sent := sent s1; closed := true;
      printed := printed s1 ++ [LogError e] ++ [LogConnClosed] |}).
Proof.
  intros H He. unfold _handle_client, try_finally, try_except. eff.
  rewrite H, He. unfold close, print. eff. cbn.
  by rewrite <- app_assoc.
Qed.

Lemma int_raises_value_error (u : text -> option Z) (s : text) (e : exn) :
  int u s = inl e -> e = ValueError.
Proof.
  unfold int. destruct (if forallb is_ascii s then _ else _); congruence.
Qed.

(** Claim C7.  On every connection that delivers a complete frame (a
    decodable header [name|size|] with a size that [int] accepts and is
    not negative, followed by at least [size] bytes, in chunks of any
    sizes), and on a machine where the file and the socket operations go
    through, the handler writes exactly the first [size] payload bytes to
    [received_files/TCP_name] (or [TLS_name]), then sends the fixed
    acknowledgement, closes the socket and reports no error. *)
Theorem complete_frame_persisted_and_acknowledged
    (use_tls : bool) (ev : env) (c : conn) (fs : gmap text bytes)
    (chunks : list bytes) (more : list recv_event)
    (name field rest : bytes) (size : Z) :
  incoming c = map RecvData chunks ++ more ->
  Forall (fun k => k <> []) chunks ->
  concat chunks = name ++ DELIM :: field ++ DELIM :: rest ->
  DELIM ∉ name -> DELIM ∉ field ->
  utf8_valid (name ++ DELIM :: field ++ [DELIM]) = true ->
  int (unicode_int ev) field = inr size ->
  0 <= size <= len rest ->
  let path := lit "received_files/" ++ protocol use_tls ++ lit "_" ++ name in
  let content := take (Z.to_nat size) rest in
  open_answer ev path = None ->
  write_answer ev path content = None ->
  sendall_answer c = None ->
  exists s',
    _handle_client use_tls ev c (fresh fs) = (inr tt, s')
    /\ files s' = <[path := content]> fs
    /\ len content = size
    /\ sent s' = [ACK]
    /\ closed s' = true
    /\ errors s' = [].
Proof.
  intros Hin Hne Hcat Hn Hf Hutf Hint Hsize path content Hopen Hwrite Hsend.
  destruct (recv_loop_complete ev chunks more (fresh fs) name field rest size)
    as (k & Hk1 & Hk2 & Hloop); [done..|lia|].
  rewrite <- Hin in Hloop.
  rewrite (handle_client_after_loop _ _ _ _ _ _ Hloop).
  unfold try_finally, try_except, save_and_ack.
  cbn [header_received filename data filesize].
  rewrite path_of_name. fold path.
  assert (slice_to (take k rest) size = content) as ->.
  { unfold content. replace size with (Z.of_nat (Z.to_nat size)) at 1 by lia.
    rewrite slice_to_nat, take_take. f_equal. lia. }
  unfold open_wb, write, sendall, close, print. eff.
  rewrite Hopen, Hwrite, Hsend. cbn.
  eexists. split; [reflexivity|]. cbn.
  split; [apply insert_insert_eq|].
  split; [|done].
  unfold content, len. rewrite length_take. unfold len in Hsize. lia.
Qed.


Lemma header_shape (name : text) (n : nat) (payload : bytes) :
  Client.make_header name n ++ payload =
  name ++ DELIM :: str_of_nat n ++ DELIM :: payload.
Proof.
  unfold Client.make_header. rewrite <- !app_assoc. done.
Qed.

Lemma header_valid (name : text) (n : nat) :
  utf8_valid name = true ->
  utf8_valid (name ++ DELIM :: str_of_nat n ++ [DELIM]) = true.
Proof.
  intros Hname. rewrite utf8_valid_app by done.
  apply utf8_valid_ascii. cbn [forallb].
  rewrite forallb_app, (digit_ascii _ (str_of_nat_digits n)). done.
Qed.

(** Claim C2.  For every name without the delimiter and every payload,
    however the frame the client builds ([name|len(payload)|] followed
    by the payload) is cut into non-empty chunks, the receive loop ends
    with the name, the length of the payload and the payload itself. *)
Theorem decoding_round_trips_for_every_chunking
    (ev : env) (s : state) (name : text) (payload : bytes)
    (chunks : list bytes) :
  utf8_valid name = true ->
  DELIM ∉ name ->
  Forall (fun k => k <> []) chunks ->
  concat chunks = Client.make_header name (length payload) ++ payload ->
  exists st s',
    recv_loop ev (map RecvData chunks) init_locals s = (inr st, s')
    /\ data st = payload
    /\ decoded st = Some (name, len payload, payload).
Proof.
  intros Hutf Hname Hne Hcat. rewrite header_shape in Hcat.
  destruct (recv_loop_complete ev chunks [] s name
              (str_of_nat (length payload)) payload (len payload))
    as (k & Hk1 & Hk2 & Hloop); try done.
  - apply digit_not_delim, str_of_nat_digits.
  - by apply header_valid.
  - apply int_str_of_nat.
  - rewrite app_nil_r in Hloop. unfold len in Hk1.
    rewrite take_ge in Hloop by lia.
    eexists _, _. split; [exact Hloop|]. split; [done|].
    unfold decoded. cbn [header_received filename filesize data].
    unfold len. by rewrite slice_to_nat, take_ge.
Qed.

Lemma decoding_round_trips_witness :
  exists st s',
    recv_loop ev0 (map RecvData [lit "a.t"; lit "xt|"; lit "5"; lit "|he"; lit "l|o"])
      init_locals (fresh ∅) = (inr st, s')
    /\ data st = lit "hel|o"
    /\ decoded st = Some (lit "a.txt", 5, lit "hel|o").
Proof.
  apply (decoding_round_trips_for_every_chunking ev0 (fresh ∅)
           (lit "a.txt") (lit "hel|o")
           [lit "a.t"; lit "xt|"; lit "5"; lit "|he"; lit "l|o"]).
  - reflexivity.
  - apply contains_false. reflexivity.
  - repeat constructor; discriminate.
  - reflexivity.
Defined.

Lemma complete_frame_witness :
  exists s',
    _handle_client true ev0 (peer [lit "a.txt|3"; lit "|ab"; lit "cde"]) (fresh ∅)
    = (inr tt, s')
    /\ files s' = <[lit "received_files/TLS_a.txt" := lit "abc"]> ∅
    /\ len (lit "abc") = 3
    /\ sent s' = [ACK]
    /\ closed s' = true
    /\ errors s' = [].
Proof.
  apply (complete_frame_persisted_and_acknowledged true ev0
           (peer [lit "a.txt|3"; lit "|ab"; lit "cde"]) ∅
           [lit "a.txt|3"; lit "|ab"; lit "cde"] []
           (lit "a.txt") (lit "3") (lit "abcde") 3).
  - reflexivity.
  - repeat constructor; discriminate.
  - reflexivity.
  - apply contains_false. reflexivity.
  - apply contains_false. reflexivity.
  - reflexivity.
  - reflexivity.
  - vm_compute. split; discriminate.
  - reflexivity.
  - reflexivity.
  - reflexivity.
Defined.

(** Claim C1, at the input [a.txt|10|abc] followed by the close of the
    connection: ten bytes are declared and three delivered, and the
    handler saves the three bytes under the declared name, acknowledges
    and reports no error. *)
Theorem truncated_transfer_is_persisted_and_acknowledged :
  _handle_client false ev0 (peer [lit "a.txt|10|abc"]) (fresh ∅) =
  (inr tt,
   {| files := {[ lit "received_files/TCP_a.txt" := lit "abc" ]};
      sent := [ACK];
      closed := true;
      printed := [LogReceiving (lit "a.txt") 10;
                  LogSaved (lit "received_files/TCP_a.txt");
                  LogConnClosed] |}).
Proof. vm_compute. reflexivity. Qed.

(** The same for every truncated connection. *)
Lemma truncated_transfer_in_general
    (use_tls : bool) (ev : env) (c : conn) (fs : gmap text bytes)
    (chunks : list bytes) (name field rest : bytes) (size : Z) :
  incoming c = map RecvData chunks ->
  Forall (fun k => k <> []) chunks ->
  concat chunks = name ++ DELIM :: field ++ DELIM :: rest ->
  DELIM ∉ name -> DELIM ∉ field ->
  utf8_valid (name ++ DELIM :: field ++ [DELIM]) = true ->
  int (unicode_int ev) field = inr size ->
  len rest < size ->
  let path := lit "received_files/" ++ protocol use_tls ++ lit "_" ++ name in
  open_answer ev path = None ->
  write_answer ev path rest = None ->
  sendall_answer c = None ->
  exists s',
    _handle_client use_tls ev c (fresh fs) = (inr tt, s')
    /\ files s' = <[path := rest]> fs
    /\ sent s' = [ACK]
    /\ errors s' = [].
Proof.
  intros Hin Hne Hcat Hn Hf Hutf Hint Hsize path Hopen Hwrite Hsend.
  pose proof (recv_loop_truncated ev chunks (fresh fs) name field rest size
                Hne Hcat Hn Hf Hutf Hint Hsize) as Hloop.
  rewrite <- Hin in Hloop.
  rewrite (handle_client_after_loop _ _ _ _ _ _ Hloop).
  unfold try_finally, try_except, save_and_ack.
  cbn [header_received filename data filesize].
  rewrite path_of_name. fold path.
  assert (slice_to rest size = rest) as ->.
  { unfold slice_to, len in *. rewrite clamp_nonneg by lia.
    apply take_ge. lia. }
  unfold open_wb, write, sendall, close, print. eff.
  rewrite Hopen, Hwrite, Hsend. cbn.
  eexists. split; [reflexivity|]. cbn.
  split; [apply insert_insert_eq|done].
Qed.

(** Claim C3 fails: a header with the size [-1] is accepted (the handler
    saves the payload less its last byte and acknowledges), and a stream
    that ends with a single field ends the handler without any error. *)
Lemma negative_size_accepted_and_short_header_silent :
  _handle_client false ev0 (peer [lit "a|-1|xyz"]) (fresh ∅) =
    (inr tt,
     {| files := {[ lit "received_files/TCP_a" := lit "xy" ]};
        sent := [ACK];
        closed := true;
        printed := [LogReceiving (lit "a") (-1);
                    LogSaved (lit "received_files/TCP_a");
                    LogConnClosed] |})
  /\ _handle_client false ev0 (peer [lit "a.txt"]) (fresh ∅) =
     (inr tt,
      {| files := ∅; sent := []; closed := true; printed := [LogConnClosed] |}).
Proof. split; vm_compute; reflexivity. Qed.

(** Claim C3, amended.  When the stream ends with fewer than two
    delimiters in it, or when the header up to the second delimiter is
    not valid UTF-8, or when its size field is not accepted by [int],
    the handler produces no header: it writes no file, sends no
    acknowledgement and closes the socket; in the first case it reports
    no error, in the second it catches [UnicodeDecodeError] and in the
    third [ValueError]. *)
Theorem malformed_header_persists_nothing
    (use_tls : bool) (ev : env) (c : conn) (fs : gmap text bytes)
    (chunks : list bytes) (err : option exn) :
  incoming c = map RecvData chunks ->
  Forall (fun k => k <> []) chunks ->
  malformed ev (concat chunks) err ->
  exists s',
    _handle_client use_tls ev c (fresh fs) = (inr tt, s')
    /\ files s' = fs
    /\ sent s' = []
    /\ closed s' = true
    /\ errors s' = match err with Some e => [e] | None => [] end
    /\ (err = None \/ err = Some UnicodeDecodeError \/ err = Some ValueError).
Proof.
  intros Hin Hne Hbad.
  remember (concat chunks) as x eqn:Hx. symmetry in Hx.
  destruct Hbad as [x Hfew | a b rest Ha Hb Hutf | a b rest e Ha Hb Hutf Hint].
  - subst x.
    pose proof (recv_loop_no_header ev chunks (fresh fs) Hne Hfew) as Hloop.
    rewrite <- Hin in Hloop.
    rewrite (handle_client_after_loop _ _ _ _ _ _ Hloop).
    eexists. split; [reflexivity|]. cbn. repeat split; auto.
  - destruct (recv_loop_bad_header ev chunks [] (fresh fs) a b rest)
      as [Hloop _]; [done..|].
    specialize (Hloop Hutf). rewrite app_nil_r, <- Hin in Hloop.
    rewrite (handle_client_loop_raises _ _ _ _ _ _ Hloop) by done.
    eexists. split; [reflexivity|]. cbn. repeat split; auto.
  - destruct (recv_loop_bad_header ev chunks [] (fresh fs) a b rest)
      as [_ Hloop]; [done..|].
    specialize (Hloop e Hutf Hint). rewrite app_nil_r, <- Hin in Hloop.
    apply int_raises_value_error in Hint as ->.
    rewrite (handle_client_loop_raises _ _ _ _ _ _ Hloop) by done.
    eexists. split; [reflexivity|]. cbn. repeat split; auto.
Qed.

Lemma malformed_header_witness :
  exists s',
    _handle_client false ev0 (peer [lit "a|"; lit "x1|xyz"]) (fresh ∅) = (inr tt, s')
    /\ files s' = ∅
    /\ sent s' = []
    /\ closed s' = true
    /\ errors s' = [ValueError]
    /\ (Some ValueError = None \/ Some ValueError = Some UnicodeDecodeError
        \/ Some ValueError = Some ValueError).
Proof.
  apply (malformed_header_persists_nothing false ev0
           (peer [lit "a|"; lit "x1|xyz"]) ∅ [lit "a|"; lit "x1|xyz"]
           (Some ValueError)).
  - reflexivity.
  - repeat constructor; discriminate.
  - apply (NotAnInteger ev0 (lit "a") (lit "x1") (lit "xyz") ValueError).
    + apply contains_false. reflexivity.
    + apply contains_false. reflexivity.
    + reflexivity.
    + reflexivity.
Defined.

End ServerFacts.

(** * Facts about the client *)

Module ClientFacts.

Import Py PyFacts Client Samples.

Lemma count_clock_app (tr tr' : list event) :
  count_clock (tr ++ tr') = (count_clock tr + count_clock tr')%nat.
Proof. unfold count_clock. by rewrite List.filter_app, length_app. Qed.

Lemma count_sendall_app (tr tr' : list event) :
  count_sendall (tr ++ tr') = (count_sendall tr + count_sendall tr')%nat.
Proof. unfold count_sendall. by rewrite List.filter_app, length_app. Qed.

(** What a run of [send_file] that returns [True] has gone through. *)
Lemma send_file_success (ev : env) (filepath : text) (s s' : state) :
  send_file ev filepath s = (inr true, s') ->
  exists raw got,
    file_bytes ev filepath = inr raw
    /\ recv_answer ev = inr got
    /\ let content := universal_newlines raw in
       let header := make_header (basename filepath) (length content) in
       let t0 := clock ev (count_clock (trace s)) in
       let t1 := clock ev (S (count_clock (trace s))) in
       s' = {| socket := socket s;
               transfer_stats :=
                 {| bytes_sent := len header + len content;
                    transfer_time := PrimFloat.sub t1 t0;
                    packet_overhead := packet_overhead (transfer_stats s) |};
               trace := trace s ++
                 [EvReadFile filepath;
                  EvPrint (lit "[INFO] Enviando arquivo");
                  EvPrint (lit "[INFO] Tamanho");
                  EvClock t0;
                  EvSendall header;
                  EvSendall content;
                  EvClock t1;
                  EvRecv 1024 got;
                  EvPrint (lit "[OK] Arquivo enviado com sucesso!");
                  EvPrint (lit "[INFO] Tempo de transferencia");
                  EvPrint (lit "[INFO] Resposta do servidor: " ++ got)] |}.
Proof.
  unfold send_file. destruct (socket s) as [k|] eqn:Hsock.
  2:{ unfold print, emit. eff. discriminate. }
  destruct (file_exists ev filepath); cbn [negb].
  2:{ unfold print, emit. eff. discriminate. }
  unfold try_except, read_text, sendall, time, recv, print, print_error, emit.
  eff. cbn [trace socket transfer_stats set_stats].
  destruct (file_bytes ev filepath) as [e|raw] eqn:Hraw.
  { destruct (is_exception e); discriminate. }
  unfold decode_utf8 at 1.
  destruct (utf8_valid raw); [|discriminate].
  destruct (sendall_answer ev _) as [e|].
  { destruct (is_exception e); discriminate. }
  cbn [trace socket transfer_stats].
  destruct (sendall_answer ev _) as [e|].
  { destruct (is_exception e); discriminate. }
  cbn [trace socket transfer_stats].
  destruct (recv_answer ev) as [e|got] eqn:Hgot.
  { destruct (is_exception e); discriminate. }
  unfold decode_utf8.
  destruct (utf8_valid got).
  2:{ destruct (is_exception _); discriminate. }
  cbn [trace socket transfer_stats bytes_sent transfer_time packet_overhead].
  intros [= <-]. exists raw, got. split; [done|]. split; [done|].
  cbv zeta. f_equal.
  - done.
  - f_equal. f_equal; rewrite !count_clock_app; cbn; f_equal; lia.
  - rewrite <- !app_assoc. cbn [app].
    rewrite !count_clock_app. cbn.
    by rewrite !Nat.add_0_r, Nat.add_1_r.
Qed.


Lemma keeps_ret {A} (x : A) : keeps_stats (mret x).
Proof. intros s r s' [= <- <-]. done. Qed.

Lemma keeps_raise {A} (e : exn) : keeps_stats (raise e : Eff state A).
Proof. intros s r s' [= <- <-]. done. Qed.

Lemma keeps_lift {A} (x : exn + A) : keeps_stats (lift x).
Proof. intros s r s' [= <- <-]. done. Qed.

Lemma keeps_check (a : answer) : keeps_stats (check a).
Proof. destruct a; [apply keeps_raise | apply keeps_ret]. Qed.

Lemma keeps_emit (e : event) : keeps_stats (emit e).
Proof. intros s r s' [= <- <-]. done. Qed.

Lemma keeps_bind {A B} (m : Eff state A) (k : A -> Eff state B) :
  keeps_stats m -> (forall x, keeps_stats (k x)) -> keeps_stats (m ≫= k).
Proof.
  intros Hm Hk s r s'. unfold mbind, Eff_bind.
  destruct (m s) as [[e|x] s1] eqn:E; intros H.
  - injection H as <- <-. by eapply Hm.
  - rewrite (Hk x _ _ _ H). by eapply Hm.
Qed.

Lemma keeps_state_dependent {A} (m : state -> Eff state A) :
  (forall t, keeps_stats (m t)) -> keeps_stats (fun s => m s s).
Proof. intros Hm s r s' H. by eapply Hm. Qed.

Create HintDb keeps.

#[local] Hint Resolve keeps_ret keeps_raise keeps_lift keeps_check keeps_emit : keeps.

Lemma keeps_print (line : String.string) : keeps_stats (print line).
Proof. apply keeps_emit. Qed.

Lemma keeps_print_error (line : String.string) (e : exn) :
  keeps_stats (print_error line e).
Proof. apply keeps_emit. Qed.

Lemma keeps_sendall (ev : env) (msg : bytes) : keeps_stats (sendall ev msg).
Proof.
  apply (keeps_state_dependent
           (fun s => check (sendall_answer ev (count_sendall (trace s)));;
                     emit (EvSendall msg))).
  intros t. apply keeps_bind; auto with keeps.
Qed.

Lemma keeps_time (ev : env) : keeps_stats (time ev).
Proof.
  apply (keeps_state_dependent
           (fun s => emit (EvClock (clock ev (count_clock (trace s))));;
                     mret (clock ev (count_clock (trace s))))).
  intros t. apply keeps_bind; auto with keeps.
Qed.

Lemma keeps_recv (ev : env) (n : Z) : keeps_stats (recv ev n).
Proof.
  apply keeps_bind; [auto with keeps|]. intros got.
  apply keeps_bind; auto with keeps.
Qed.

Lemma keeps_read_text (ev : env) (filepath : text) :
  keeps_stats (read_text ev filepath).
Proof.
  repeat (apply keeps_bind; [auto with keeps|]; intros ?). auto with keeps.
Qed.

Lemma unless_true_bind {A} (m : Eff state A) (k : A -> Eff state bool) :
  keeps_stats m -> (forall x, keeps_stats_unless_true (k x)) ->
  keeps_stats_unless_true (m ≫= k).
Proof.
  intros Hm Hk s r s'. unfold mbind, Eff_bind.
  destruct (m s) as [[e|x] s1] eqn:E; intros H Hr.
  - injection H as <- <-. by eapply Hm.
  - rewrite (Hk x _ _ _ H Hr). by eapply Hm.
Qed.

Lemma unless_true_of_keeps (m : Eff state bool) :
  keeps_stats m -> keeps_stats_unless_true m.
Proof. intros Hm s r s' H _. by eapply Hm. Qed.

Lemma unless_true_try_except (body : Eff state bool) (h : exn -> Eff state bool) :
  keeps_stats_unless_true body -> (forall e, keeps_stats (h e)) ->
  keeps_stats_unless_true (try_except body h).
Proof.
  intros Hb Hh s r s'. unfold try_except.
  destruct (body s) as [[e|x] s1] eqn:E.
  - assert (transfer_stats s1 = transfer_stats s) as <-.
    { by eapply Hb. }
    destruct (is_exception e).
    + intros H _. by eapply Hh.
    + by intros [= <- <-] _.
  - intros [= <- <-] Hr. by eapply Hb.
Qed.

Lemma send_file_keeps_stats_unless_true (ev : env) (filepath : text) :
  keeps_stats_unless_true (send_file ev filepath).
Proof.
  intros s. unfold send_file.
  destruct (socket s).
  2:{ intros r s'. apply unless_true_of_keeps.
      apply keeps_bind; [apply keeps_print | auto with keeps]. }
  destruct (file_exists ev filepath); cbn [negb].
  2:{ intros r s'. apply unless_true_of_keeps.
      apply keeps_bind; [apply keeps_print | auto with keeps]. }
  intros r s'. apply unless_true_try_except.
  - apply unless_true_bind; [apply keeps_read_text|]. intros content.
    apply unless_true_bind; [apply keeps_print|]. intros _.
    apply unless_true_bind; [apply keeps_print|]. intros _.
    apply unless_true_bind; [apply keeps_time|]. intros t0.
    apply unless_true_bind; [apply keeps_sendall|]. intros _.
    apply unless_true_bind; [apply keeps_sendall|]. intros _.
    apply unless_true_bind; [apply keeps_time|]. intros t1.
    apply unless_true_bind; [apply keeps_recv|]. intros got.
    apply unless_true_bind; [apply keeps_lift|]. intros ack.
    intros s1 r1 s1' H Hr. exfalso. apply Hr.
    unfold print, emit in H. eff. cbv [mbind mret Eff_bind Eff_ret modify] in H.
    by injection H as <- _.
  - intros e. apply keeps_bind; [apply keeps_print_error | auto with keeps].
Qed.

(** Claim C10.  Whenever [send_file] does not return [True] (no
    socket, no file, or an exception while reading, sending or waiting
    for the acknowledgement) [transfer_stats] is what it was before the
    call; and when the statistics have changed the acknowledgement read
    has returned. *)
Theorem failed_send_leaves_stats_untouched
    (ev : env) (filepath : text) (s s' : state) (r : exn + bool) :
  send_file ev filepath s = (r, s') ->
  (r <> inr true -> transfer_stats s' = transfer_stats s)
  /\ (socket s = None -> r = inr false)
  /\ (file_exists ev filepath = false -> r = inr false)
  /\ (transfer_stats s' <> transfer_stats s ->
      exists got, recv_answer ev = inr got /\ EvRecv 1024 got ∈ trace s').
Proof.
  intros H. split; [|split; [|split]].
  - by apply (send_file_keeps_stats_unless_true ev filepath s).
  - intros Hs. unfold send_file in H. rewrite Hs in H.
    by injection H as <- _.
  - intros Hf. unfold send_file in H. rewrite Hf in H.
    destruct (socket s); by injection H as <- _.
  - intros Hne.
    assert (r = inr true \/ r <> inr true) as [->|Hr].
    { destruct r as [e|[|]]; [right|left|right]; done. }
    + destruct (send_file_success _ _ _ _ H) as (raw & got & _ & Hgot & ->).
      exists got. split; [done|]. cbn [trace].
      apply elem_of_app. right. set_solver.
    + destruct Hne. by apply (send_file_keeps_stats_unless_true ev filepath s r).
Qed.


(** Claim C6.  After every [send_file] that returns [True], the two
    messages sent are the header [name|size|] and the content read from
    the file, and [bytes_sent] is the byte length of the one plus the
    byte length of the other. *)
Theorem bytes_sent_is_header_plus_payload
    (ev : env) (filepath : text) (s s' : state) :
  send_file ev filepath s = (inr true, s') ->
  exists raw header content,
    file_bytes ev filepath = inr raw
    /\ content = universal_newlines raw
    /\ header = make_header (basename filepath) (length content)
    /\ List.filter is_sendall (trace s') =
       List.filter is_sendall (trace s) ++ [EvSendall header; EvSendall content]
    /\ bytes_sent (get_stats s') = len header + len content.
Proof.
  intros H.
  destruct (send_file_success _ _ _ _ H) as (raw & got & Hraw & _ & ->).
  exists raw. do 2 eexists. split; [done|]. split; [done|]. split; [done|].
  split; [|done].
  cbn [trace]. by rewrite List.filter_app.
Qed.

(** Claim C8.  In every [send_file] that returns [True] the clock is
    read just before the header is sent and again just after the payload
    is sent, nothing else happens in between, the acknowledgement is
    read after the second reading, and [transfer_time] is the second
    reading minus the first. *)
Theorem elapsed_time_spans_the_two_sends
    (ev : env) (filepath : text) (s s' : state) :
  send_file ev filepath s = (inr true, s') ->
  exists before header content t0 t1 got after,
    trace s' =
      trace s ++ before
      ++ [EvClock t0; EvSendall header; EvSendall content; EvClock t1;
          EvRecv 1024 got]
      ++ after
    /\ Forall (fun e => is_clock e = false /\ is_sendall e = false) before
    /\ Forall (fun e => match e with EvPrint _ => True | _ => False end) after
    /\ transfer_time (get_stats s') = PrimFloat.sub t1 t0.
Proof.
  intros H.
  destruct (send_file_success _ _ _ _ H) as (raw & got & Hraw & _ & ->).
  exists [EvReadFile filepath; EvPrint (lit "[INFO] Enviando arquivo");
          EvPrint (lit "[INFO] Tamanho")].
  do 4 eexists. exists got. eexists.
  split; [reflexivity|]. split; [|split; [|reflexivity]].
  - repeat constructor.
  - repeat constructor.
Qed.

(** Claim C5 fails: a refused TCP connection and a failed TLS handshake
    both make [connect_tls] return [False], as a refused connection makes
    [connect_plain] do; no exception reaches the caller. *)
Lemma transport_and_handshake_failures_look_alike :
  (connect_tls cenv_refused init).1 = inr false
  /\ (connect_tls cenv_bad_handshake init).1 = inr false
  /\ (connect_plain cenv_refused init).1 = inr false.
Proof. repeat split; vm_compute; reflexivity. Qed.

(** Claim C5, amended.  [connect_plain] and [connect_tls] catch every
    exception and return a boolean: [True] when every step went
    through, [False] when any step failed, whichever it was. *)
Theorem connect_returns_only_a_boolean (ev : env) (s : state) :
  is_exception_answer (create_answer ev) = true ->
  is_exception_answer (context_answer ev) = true ->
  is_exception_answer (connect_answer ev) = true ->
  is_exception_answer (handshake_answer ev) = true ->
  (connect_plain ev s).1 =
    inr (went_through (create_answer ev) && went_through (connect_answer ev))
  /\ (connect_tls ev s).1 =
    inr (went_through (create_answer ev) && went_through (context_answer ev)
         && went_through (connect_answer ev)
         && went_through (handshake_answer ev)).
Proof.
  unfold connect_plain, connect_tls, try_except, _create_socket,
    print, print_error, emit.
  eff.
  destruct (create_answer ev) as [e1|], (context_answer ev) as [e2|],
    (connect_answer ev) as [e3|], (handshake_answer ev) as [e4|];
    cbn; intros H1 H2 H3 H4; rewrite ?H1, ?H2, ?H3, ?H4; done.
Qed.

Lemma connect_witness :
  (connect_plain cenv_bad_handshake init).1 = inr true
  /\ (connect_tls cenv_bad_handshake init).1 = inr false.
Proof.
  apply (connect_returns_only_a_boolean cenv_bad_handshake init); reflexivity.
Defined.

Lemma bytes_sent_witness :
  exists raw header content,
    file_bytes cenv_ok some_path = inr raw
    /\ content = universal_newlines raw
    /\ header = make_header (basename some_path) (length content)
    /\ List.filter is_sendall (trace (send_file cenv_ok some_path connected).2) =
       List.filter is_sendall (trace connected)
       ++ [EvSendall header; EvSendall content]
    /\ bytes_sent (get_stats (send_file cenv_ok some_path connected).2)
       = len header + len content.
Proof.
  apply (bytes_sent_is_header_plus_payload cenv_ok some_path connected).
  vm_compute. reflexivity.
Defined.

Lemma elapsed_time_witness :
  exists before header content t0 t1 got after,
    trace (send_file cenv_ok some_path connected).2 =
      trace connected ++ before
      ++ [EvClock t0; EvSendall header; EvSendall content; EvClock t1;
          EvRecv 1024 got]
      ++ after
    /\ Forall (fun e => is_clock e = false /\ is_sendall e = false) before
    /\ Forall (fun e => match e with EvPrint _ => True | _ => False end) after
    /\ transfer_time (get_stats (send_file cenv_ok some_path connected).2)
       = PrimFloat.sub t1 t0.
Proof.
  apply (elapsed_time_spans_the_two_sends cenv_ok some_path connected).
  vm_compute. reflexivity.
Defined.

Lemma failed_send_witness :
  (@inr exn bool false <> inr true ->
   transfer_stats (send_file cenv_broken some_path connected).2
   = transfer_stats connected)
  /\ (socket connected = None -> @inr exn bool false = inr false)
  /\ (file_exists cenv_broken some_path = false -> @inr exn bool false = inr false)
  /\ (transfer_stats (send_file cenv_broken some_path connected).2
      <> transfer_stats connected ->
      exists got,
        recv_answer cenv_broken = inr got
        /\ EvRecv 1024 got ∈ trace (send_file cenv_broken some_path connected).2).
Proof.
  apply (failed_send_leaves_stats_untouched cenv_broken some_path connected).
  vm_compute. reflexivity.
Defined.

End ClientFacts.

(** * Facts about the acceptor *)

Module AcceptorFacts.

Import Py PyFacts Acceptor Samples.

(** The handler closes its socket however it ends. *)
Lemma handle_client_closes (use_tls : bool) (ev : Server.env)
    (c : Server.conn) (s : Server.state) :
  Server.closed (Server._handle_client use_tls ev c s).2 = true.
Proof.
  unfold Server._handle_client, try_finally.
  destruct (try_except _ _ s) as [r s1].
  unfold Server.close, Server.print. eff. done.
Qed.

Lemma body_keeps_running (use_tls : bool) (a : arrival) (s : server) :
  per_connection a = true ->
  running (accept_body use_tls a s).2 = running s
  /\ listener (accept_body use_tls a s).2 = listener s
  /\ position_of (accept_body use_tls a s).2 = position_of s
  /\ (accept_body use_tls a s).1 <> inl KeyboardInterrupt.
Proof.
  destruct a as [e| |id c x y z]; cbn [per_connection]; [|done|].
  - intros He. cbn. repeat split; try done. intros [= ->]. done.
  - intros [[Hx Hy]%andb_true_iff Hz]%andb_true_iff.
    unfold accept_body, set_conn, print, wrap_socket, start_thread, set_conn.
    eff.
    destruct use_tls, x as [ex|], y as [ey|], z as [ez|]; cbn;
      repeat split; try done; intros [= ->]; done.
Qed.

Lemma arrive_keeps_accepting (use_tls : bool) (a : arrival) (s : server) :
  per_connection a = true ->
  position_of s = AtAccept -> running s = true ->
  position_of (arrive use_tls a s).2 = AtAccept
  /\ running (arrive use_tls a s).2 = true
  /\ listener (arrive use_tls a s).2 = listener s.
Proof.
  intros Ha Hpos Hrun.
  destruct (body_keeps_running use_tls a s Ha) as (H1 & H2 & H3 & H4).
  unfold arrive, turn. rewrite Hpos.
  destruct (accept_body use_tls a s) as [[e|[]] s1]; cbn in *.
  - rewrite H1, Hrun in *.
    destruct e; try done; unfold print; eff; cbn; rewrite H1; cbn;
      by rewrite H2, H3, Hpos.
  - rewrite H1, Hrun. cbn. by rewrite H1, Hrun, H2, H3, Hpos.
Qed.

Lemma run_handler_keeps_accepting (use_tls : bool) (ev : Server.env)
    (id : nat) (s : server) :
  position_of (run_handler use_tls ev id s) = position_of s
  /\ running (run_handler use_tls ev id s) = running s
  /\ listener (run_handler use_tls ev id s) = listener s.
Proof.
  unfold run_handler.
  destruct (list_find _ _) as [[i [j c]]|]; [|done].
  by destruct (Server._handle_client _ _ _ _).
Qed.


Lemma start_outcome (b : boot) (fs : gmap text bytes) :
  let s := (start b (init fs)).2 in
  if boot_went_through b
  then position_of s = AtAccept /\ running s = true /\ listener s = Some true
  else position_of s = Exited /\ running s = false /\ threads s = [] /\ conns s = ∅.
Proof.
  unfold start, boot_went_through, try_except, stop, close_listener,
    set_listener, set_running, set_position, print.
  eff.
  destruct (create_answer b) as [e1|], (bind_answer b) as [e2|],
    (listen_answer b) as [e3|]; cbn;
    try (destruct e1); try (destruct e2); try (destruct e3); cbn; done.
Qed.

Lemma exec_keeps_accepting (use_tls : bool) (ev : Server.env)
    (schedule : list action) (s : server) :
  Forall (fun act => connection_step act = true) schedule ->
  position_of s = AtAccept -> running s = true ->
  position_of (exec use_tls ev schedule s) = AtAccept
  /\ running (exec use_tls ev schedule s) = true
  /\ listener (exec use_tls ev schedule s) = listener s.
Proof.
  intros Hs. revert s. induction Hs as [|act schedule Hact _ IH]; intros s Hpos Hrun.
  - done.
  - cbn [exec foldl]. fold (exec use_tls ev schedule).
    destruct act as [b|a|id]; [done| |]; cbn [step].
    + destruct (arrive_keeps_accepting use_tls a s Hact Hpos Hrun) as (H1 & H2 & H3).
      destruct (IH _ H1 H2) as (? & ? & ?). by rewrite <- H3.
    + destruct (run_handler_keeps_accepting use_tls ev id s) as (H1 & H2 & H3).
      destruct (IH (run_handler use_tls ev id s)) as (? & ? & ?);
        [by rewrite H1|by rewrite H2|]. by rewrite <- H3.
Qed.

Lemma exec_after_exit (use_tls : bool) (ev : Server.env)
    (schedule : list action) (s : server) :
  Forall (fun act => connection_step act = true) schedule ->
  position_of s = Exited -> threads s = [] ->
  exec use_tls ev schedule s = s.
Proof.
  intros Hs. revert s. induction Hs as [|act schedule Hact _ IH]; intros s Hpos Hthr.
  - done.
  - cbn [exec foldl]. fold (exec use_tls ev schedule).
    destruct act as [b|a|id]; [done| |]; cbn [step].
    + unfold arrive. rewrite Hpos. cbn. by apply IH.
    + unfold run_handler. rewrite Hthr. cbn. by apply IH.
Qed.

(** Claim C9.  Once [bind] and [listen] have gone through, whatever
    happens to the connections (a failed handshake, a handler that meets
    a bad header, a truncated transfer or a file it cannot write, an
    error of [accept()] itself) the acceptor is back in [accept()] with
    [running] set; when the start-up fails the server stops without
    having accepted anything. *)
Theorem accept_loop_outlives_connection_errors
    (use_tls : bool) (ev : Server.env) (b : boot) (fs : gmap text bytes)
    (schedule : list action) :
  Forall (fun act => connection_step act = true) schedule ->
  let s := exec use_tls ev (Start b :: schedule) (init fs) in
  if boot_went_through b
  then position_of s = AtAccept /\ running s = true /\ listener s = Some true
  else position_of s = Exited /\ running s = false /\ threads s = [] /\ conns s = ∅.
Proof.
  intros Hs.
  change (exec use_tls ev (Start b :: schedule) (init fs))
    with (exec use_tls ev schedule (start b (init fs)).2).
  pose proof (start_outcome b fs) as Hstart. cbv zeta in Hstart. cbv zeta.
  destruct (boot_went_through b).
  - destruct Hstart as (H1 & H2 & H3).
    destruct (exec_keeps_accepting use_tls ev schedule _ Hs H1 H2) as (? & ? & ?).
    repeat split; try done. congruence.
  - destruct Hstart as (H1 & H2 & H3 & H4).
    by rewrite exec_after_exit.
Qed.

(** Claim C4 fails: after one connection has been accepted and its
    handler thread started, the acceptor is waiting in [accept()] again
    while the socket of that connection is still open. *)
Lemma acceptor_waits_again_while_connection_is_open :
  position_of one_accepted = AtAccept
  /\ running one_accepted = true
  /\ conns one_accepted !! 0%nat = Some true
  /\ threads one_accepted = [(0%nat, peer [lit "a|1|x"])].
Proof. vm_compute. done. Qed.

(** Claim C4, amended.  A handler closes its socket on every exit
    path, so the socket of a connection is closed once its handler
    thread has run; and a connection whose TLS handshake fails is closed
    when the acceptor is back from that arrival. *)
Theorem handler_closes_its_connection_on_every_exit
    (use_tls : bool) (ev : Server.env) (id : nat) (c : Server.conn)
    (s : server) :
  (id, c) ∈ threads s ->
  position_of s = AtAccept ->
  Server.closed (Server._handle_client use_tls ev c (Server.fresh (disk s))).2 = true
  /\ conns (run_handler use_tls ev id s) !! id = Some false
  /\ (forall c' e thread_answer,
        conns (arrive true (Accepted id c' None (Some e) thread_answer) s).2 !! id
        = Some false).
Proof.
  intros Hin Hpos. split; [apply handle_client_closes|]. split.
  - unfold run_handler.
    destruct (list_find _ _) as [[i [j c0]]|] eqn:E.
    + pose proof (handle_client_closes use_tls ev c0 (Server.fresh (disk s))) as Hc.
      destruct (Server._handle_client _ _ _ _) as [r h]. cbn in *.
      rewrite Hc. apply lookup_insert_eq.
    + apply list_find_None in E. rewrite Forall_forall in E.
      by destruct (E _ Hin).
  - intros c' e z. unfold arrive, turn, accept_body. rewrite Hpos.
    unfold set_conn, print, wrap_socket, set_conn, stop, close_listener,
      set_running, set_listener, set_position.
    eff. cbn.
    destruct e; cbn; destruct (running s), (listener s); cbn;
      apply lookup_insert_eq.
Qed.

Lemma handler_closes_witness :
  Server.closed
    (Server._handle_client false ev0 (peer [lit "a|1|x"])
       (Server.fresh (disk one_accepted))).2 = true
  /\ conns (run_handler false ev0 0 one_accepted) !! 0%nat = Some false
  /\ (forall c' e thread_answer,
        conns (arrive true (Accepted 0 c' None (Some e) thread_answer)
                 one_accepted).2 !! 0%nat
        = Some false).
Proof.
  apply (handler_closes_its_connection_on_every_exit false ev0 0
           (peer [lit "a|1|x"]) one_accepted).
  - vm_compute. constructor.
  - reflexivity.
Defined.

Lemma accept_loop_witness :
  position_of (exec true ev0 (Start boot_ok :: rough_schedule) (init ∅)) = AtAccept
  /\ running (exec true ev0 (Start boot_ok :: rough_schedule) (init ∅)) = true
  /\ listener (exec true ev0 (Start boot_ok :: rough_schedule) (init ∅)) = Some true.
Proof.
  apply (accept_loop_outlives_connection_errors true ev0 boot_ok ∅ rough_schedule).
  repeat constructor.
Defined.

End AcceptorFacts.

(** * Further properties of the handler *)

Module ServerExtras.
Import Py PyFacts Server ServerFacts ServerMore Samples MoreSamples.

Lemma add_lines_nil (s : state) : add_lines [] s = s.
Proof. destruct s. unfold add_lines. cbn. by rewrite app_nil_r. Qed.

Lemma add_lines_app (l1 l2 : list log_line) (s : state) :
  add_lines l2 (add_lines l1 s) = add_lines (l1 ++ l2) s.
Proof. unfold add_lines. cbn. by rewrite app_assoc. Qed.

(** [process_header] only prints, and what it returns does not depend on
    the state. *)
Lemma no_error_lines (lines : list log_line) :
  Forall no_error_line lines ->
  omap (fun l => match l with LogError e => Some e | _ => None end) lines = [].
Proof.
  induction 1 as [|l lines Hl _ IH]; [done|].
  destruct l; cbn; done.
Qed.

Lemma process_header_uniform (ev : env) (st : locals) :
  exists r lines,
    Forall no_error_line lines
    /\ forall s, process_header ev st s = (r, add_lines lines s).
Proof.
  unfold process_header.
  destruct (negb (header_received st) && contains DELIM (data st)).
  2:{ exists (inr st), []. split; [done|]. intros s. by rewrite add_lines_nil. }
  eff. destruct (decode_utf8 _) as [e|header].
  { exists (inl e), []. split; [done|]. intros s. by rewrite add_lines_nil. }
  destruct (2 <=? len (split DELIM header)).
  2:{ exists (inr st), []. split; [done|]. intros s. by rewrite add_lines_nil. }
  destruct (int _ _) as [e|size].
  { exists (inl e), []. split; [done|]. intros s. by rewrite add_lines_nil. }
  eexists (inr _), [LogReceiving _ _]. split; [by repeat constructor|].
  intros s. reflexivity.
Qed.

Lemma recv_loop_uniform (ev : env) (script : list recv_event) (st : locals) :
  exists r lines,
    Forall no_error_line lines
    /\ forall s, recv_loop ev script st s = (r, add_lines lines s).
Proof.
  revert st. induction script as [|[chunk|e] script IH]; intros st.
  - exists (inr st), []. split; [done|]. intros s. by rewrite add_lines_nil.
  - destruct chunk as [|x chunk].
    { exists (inr st), []. split; [done|]. intros s. by rewrite add_lines_nil. }
    cbn [recv_loop]. eff.
    destruct (process_header_uniform ev (set_data st (data st ++ x :: chunk)))
      as (r & lines & Hok & Hp).
    destruct r as [e|st'].
    { exists (inl e), lines. split; [done|]. intros s. by rewrite Hp. }
    destruct (header_received st' && (filesize st' <=? len (data st'))) eqn:E.
    + exists (inr st'), lines. split; [done|]. intros s. by rewrite Hp, E.
    + destruct (IH st') as (r & lines' & Hok' & Hl).
      exists r, (lines ++ lines'). split; [by apply Forall_app|]. intros s.
      by rewrite Hp, E, Hl, add_lines_app.
  - exists (inl e), []. split; [done|]. intros s. by rewrite add_lines_nil.
Qed.


(** The handler, on a connection that delivers a complete frame, gets to
    the point of saving with the frame's name and content. *)
Lemma handler_with_complete_frame (use_tls : bool) (ev : env) (c : conn)
    (name : text) (content : bytes) (s : state) :
  delivers ev c name content ->
  exists st,
    _handle_client use_tls ev c s =
    try_finally
      (try_except (save_and_ack use_tls ev c st) (fun e => print (LogError e)))
      (close;; print LogConnClosed)
      (add_lines [LogReceiving name (filesize st)] s)
    /\ header_received st = true
    /\ filename st = name
    /\ slice_to (data st) (filesize st) = content.
Proof.
  intros (chunks & more & field & rest & size & Hin & Hne & Hcat & Hn & Hf
          & Hutf & Hint & Hsize & ->).
  destruct (recv_loop_complete ev chunks more s name field rest size)
    as (k & Hk1 & Hk2 & Hloop); [done..|lia|].
  rewrite <- Hin in Hloop.
  exists {| data := take k rest; header_received := true;
            filename := name; filesize := size |}.
  split; [|split; [|split]].
  - rewrite (handle_client_after_loop _ _ _ _ _ _ Hloop). reflexivity.
  - done.
  - done.
  - cbn [data filesize].
    replace size with (Z.of_nat (Z.to_nat size)) at 1 by lia.
    rewrite slice_to_nat, take_take. f_equal. lia.
Qed.

(** The three chunks of the examples carry a complete frame, with two
    bytes to spare. *)
Lemma three_chunks_deliver (ev : env) (c : conn) :
  incoming c = map RecvData three_chunks ->
  delivers ev c (lit "a.txt") (lit "abc").
Proof.
  intros Hin.
  exists three_chunks, [], (lit "3"), (lit "abcde"), 3.
  rewrite app_nil_r.
  split; [done|]. split; [repeat constructor; discriminate|].
  split; [reflexivity|].
  split; [apply contains_false; reflexivity|].
  split; [apply contains_false; reflexivity|].
  split; [reflexivity|]. split; [reflexivity|].
  split; [|reflexivity]. vm_compute. split; discriminate.
Qed.

(** Extra X4.  When a complete frame has come in and the file cannot
    be opened, nothing is written, no acknowledgement is sent, the
    socket is closed and the exception is reported. *)
Theorem open_failure_saves_and_acknowledges_nothing
    (use_tls : bool) (ev : env) (c : conn) (fs : gmap text bytes)
    (name : text) (content : bytes) (e : exn) :
  delivers ev c name content ->
  open_answer ev (path_for use_tls name) = Some e ->
  is_exception e = true ->
  exists s',
    _handle_client use_tls ev c (fresh fs) = (inr tt, s')
    /\ files s' = fs
    /\ sent s' = []
    /\ closed s' = true
    /\ errors s' = [e].
Proof.
  intros Hd Hopen He.
  destruct (handler_with_complete_frame use_tls ev c name content (fresh fs) Hd)
    as (st & -> & Hhr & Hname & Hcontent).
  unfold try_finally, try_except, save_and_ack.
  rewrite Hhr, Hname, Hcontent, path_of_name. fold (path_for use_tls name).
  unfold open_wb, write, sendall, close, print. eff.
  rewrite Hopen, He. cbn.
  eexists. split; [reflexivity|]. done.
Qed.

Lemma open_failure_witness :
  exists s',
    _handle_client false ev_no_open (peer three_chunks) (fresh ∅) = (inr tt, s')
    /\ files s' = ∅
    /\ sent s' = []
    /\ closed s' = true
    /\ errors s' = [OSError].
Proof.
  apply (open_failure_saves_and_acknowledges_nothing false ev_no_open
           (peer three_chunks) ∅ (lit "a.txt") (lit "abc") OSError).
  - by apply three_chunks_deliver.
  - reflexivity.
  - reflexivity.
Defined.

(** Extra X5.  When a complete frame has come in, the file is opened
    and the write fails, what the file held before is gone (the opening
    has emptied it, and a failed write is taken to leave nothing), no
    acknowledgement is sent and the exception is reported. *)
Theorem write_failure_leaves_an_empty_file
    (use_tls : bool) (ev : env) (c : conn) (fs : gmap text bytes)
    (name : text) (content : bytes) (e : exn) :
  delivers ev c name content ->
  open_answer ev (path_for use_tls name) = None ->
  write_answer ev (path_for use_tls name) content = Some e ->
  is_exception e = true ->
  exists s',
    _handle_client use_tls ev c (fresh fs) = (inr tt, s')
    /\ files s' = <[path_for use_tls name := []]> fs
    /\ sent s' = []
    /\ closed s' = true
    /\ errors s' = [e].
Proof.
  intros Hd Hopen Hwrite He.
  destruct (handler_with_complete_frame use_tls ev c name content (fresh fs) Hd)
    as (st & -> & Hhr & Hname & Hcontent).
  unfold try_finally, try_except, save_and_ack.
  rewrite Hhr, Hname, Hcontent, path_of_name. fold (path_for use_tls name).
  unfold open_wb, write, sendall, close, print. eff.
  rewrite Hopen, Hwrite, He. cbn.
  eexists. split; [reflexivity|]. done.
Qed.

Lemma write_failure_witness :
  exists s',
    _handle_client true ev_no_write (peer three_chunks)
      (fresh {[path_for true (lit "a.txt") := lit "old"]}) = (inr tt, s')
    /\ files s' = <[path_for true (lit "a.txt") := []]>
                    {[path_for true (lit "a.txt") := lit "old"]}
    /\ sent s' = []
    /\ closed s' = true
    /\ errors s' = [OSError].
Proof.
  apply (write_failure_leaves_an_empty_file true ev_no_write
           (peer three_chunks) {[path_for true (lit "a.txt") := lit "old"]}
           (lit "a.txt") (lit "abc") OSError).
  - by apply three_chunks_deliver.
  - reflexivity.
  - reflexivity.
  - reflexivity.
Defined.

(** Extra X6.  When the acknowledgement cannot be sent the file stays
    saved with its full content; the exception is reported. *)
Theorem failed_acknowledgement_keeps_the_file
    (use_tls : bool) (ev : env) (c : conn) (fs : gmap text bytes)
    (name : text) (content : bytes) (e : exn) :
  delivers ev c name content ->
  open_answer ev (path_for use_tls name) = None ->
  write_answer ev (path_for use_tls name) content = None ->
  sendall_answer c = Some e ->
  is_exception e = true ->
  exists s',
    _handle_client use_tls ev c (fresh fs) = (inr tt, s')
    /\ files s' = <[path_for use_tls name := content]> fs
    /\ sent s' = []
    /\ closed s' = true
    /\ errors s' = [e].
Proof.
  intros Hd Hopen Hwrite Hsend He.
  destruct (handler_with_complete_frame use_tls ev c name content (fresh fs) Hd)
    as (st & -> & Hhr & Hname & Hcontent).
  unfold try_finally, try_except, save_and_ack.
  rewrite Hhr, Hname, Hcontent, path_of_name. fold (path_for use_tls name).
  unfold open_wb, write, sendall, close, print. eff.
  rewrite Hopen, Hwrite, Hsend, He. cbn.
  eexists. split; [reflexivity|]. cbn. split; [apply insert_insert_eq|done].
Qed.

Lemma failed_acknowledgement_witness :
  exists s',
    _handle_client false ev0 (peer_gone three_chunks) (fresh ∅) = (inr tt, s')
    /\ files s' = <[path_for false (lit "a.txt") := lit "abc"]> ∅
    /\ sent s' = []
    /\ closed s' = true
    /\ errors s' = [OSError].
Proof.
  apply (failed_acknowledgement_keeps_the_file false ev0
           (peer_gone three_chunks) ∅ (lit "a.txt") (lit "abc") OSError).
  - by apply three_chunks_deliver.
  - reflexivity.
  - reflexivity.
  - reflexivity.
  - reflexivity.
Defined.


(** Every way the handler can end, seen from the disk and the socket. *)
Lemma handler_outcome (use_tls : bool) (ev : env) (c : conn) :
  exists r o out,
    (forall fs, exists s',
        _handle_client use_tls ev c (fresh fs) = (r, s')
        /\ files s' = apply_write o fs
        /\ sent s' = out
        /\ closed s' = true
        /\ (out = [ACK] -> errors s' = []))
    /\ (o = None \/ exists name v, o = Some (path_for use_tls name, v))
    /\ (out = [] \/ (out = [ACK] /\ exists name v, o = Some (path_for use_tls name, v))).
Proof.
  destruct (recv_loop_uniform ev (incoming c) init_locals)
    as (r0 & lines & Hok & Hloop).
  destruct r0 as [e|st].
  { assert (forall fs, _handle_client use_tls ev c (fresh fs) =
              (if is_exception e then inr tt else inl e,
               {| files := fs; sent := []; closed := true;
                  printed := lines ++ (if is_exception e then [LogError e] else [])
                             ++ [LogConnClosed] |})) as H.
    { intros fs. unfold _handle_client, try_finally, try_except. eff.
      rewrite Hloop. destruct (is_exception e); cbn; [|done].
      by rewrite <- app_assoc. }
    eexists _, None, []. split; [|auto].
    intros fs. rewrite H. eexists. split; [reflexivity|]. done. }
  assert (forall fs, _handle_client use_tls ev c (fresh fs) =
            try_finally
              (try_except (save_and_ack use_tls ev c st)
                 (fun e => print (LogError e)))
              (close;; print LogConnClosed) (add_lines lines (fresh fs))) as H.
  { intros fs. apply handle_client_after_loop. apply Hloop. }
  unfold try_finally, try_except, save_and_ack in H.
  destruct (header_received st).
  2:{ exists (inr tt), None, []. split; [|auto].
      intros fs. rewrite H. eexists. split; [reflexivity|]. done. }
  rewrite path_of_name in H. fold (path_for use_tls (filename st)) in H.
  set (p := path_for use_tls (filename st)) in *.
  set (v := slice_to (data st) (filesize st)) in *.
  unfold open_wb, write, sendall, close, print in H.
  cbv [mbind mret Eff_bind Eff_ret lift raise check modify] in H.
  destruct (open_answer ev p) as [e|].
  { eexists (if is_exception e then inr tt else inl e), None, [].
    split; [|auto].
    intros fs. rewrite H. cbn. destruct (is_exception e); cbn;
      (eexists; split; [reflexivity|]; done). }
  destruct (write_answer ev p v) as [e|].
  { eexists (if is_exception e then inr tt else inl e), (Some (p, [])), [].
    split; [|split; [right; by exists (filename st), []|by left]].
    intros fs. rewrite H. cbn. destruct (is_exception e); cbn;
      (eexists; split; [reflexivity|]; done). }
  destruct (sendall_answer c) as [e|].
  { eexists (if is_exception e then inr tt else inl e), (Some (p, v)), [].
    split; [|split; [right; by exists (filename st), v|by left]].
    intros fs. rewrite H. cbn. destruct (is_exception e); cbn;
      (eexists; split; [reflexivity|]; cbn;
       split; [apply insert_insert_eq|done]). }
  exists (inr tt), (Some (p, v)), [ACK].
  split; [|split; [right|right; split; [done|]]; by exists (filename st), v].
  intros fs. rewrite H. cbn.
  eexists. split; [reflexivity|]. cbn.
  split; [apply insert_insert_eq|]. split; [done|]. split; [done|].
  intros _.
  unfold errors. cbn [printed app].
  rewrite !omap_app, (no_error_lines lines Hok). done.
Qed.

(** Extra X1.  Whatever comes in and whatever fails, a handler sets at
    most one file, the same whatever else the disk holds, and its path
    is [received_files/], the protocol tag, an underscore and a name. *)
Theorem handler_changes_at_most_one_file
    (use_tls : bool) (ev : env) (c : conn) :
  exists o,
    (forall fs,
       files (_handle_client use_tls ev c (fresh fs)).2 = apply_write o fs)
    /\ (o = None \/ exists name v, o = Some (path_for use_tls name, v)).
Proof.
  destruct (handler_outcome use_tls ev c) as (r & o & out & H & Ho & _).
  exists o. split; [|done]. intros fs.
  destruct (H fs) as (s' & -> & Hf & _). done.
Qed.

(** Extra X2.  A handler sends nothing but the acknowledgement, at
    most once, and only when it has saved a file and caught no
    exception. *)
Theorem acknowledgement_only_after_the_file_is_saved
    (use_tls : bool) (ev : env) (c : conn) (fs : gmap text bytes) :
  sent (_handle_client use_tls ev c (fresh fs)).2 = []
  \/ (sent (_handle_client use_tls ev c (fresh fs)).2 = [ACK]
      /\ errors (_handle_client use_tls ev c (fresh fs)).2 = []
      /\ exists name v,
           files (_handle_client use_tls ev c (fresh fs)).2
           = <[path_for use_tls name := v]> fs).
Proof.
  destruct (handler_outcome use_tls ev c) as (r & o & out & H & _ & Hout).
  destruct (H fs) as (s' & -> & Hf & Hs & _ & He). cbn [snd].
  destruct Hout as [-> | (-> & name & v & ->)]; [by left|].
  right. split; [done|]. split; [by apply He|]. by exists name, v.
Qed.


(** Extra X3.  When [recv] raises before the frame is complete (the
    header is not all there, or the payload is still short), nothing is
    written, no acknowledgement is sent, the socket is closed and the
    exception is reported. *)
Theorem receive_error_before_the_frame_is_complete
    (use_tls : bool) (ev : env) (c : conn) (fs : gmap text bytes)
    (chunks : list bytes) (more : list recv_event) (e : exn) :
  incoming c = map RecvData chunks ++ RecvRaise e :: more ->
  Forall (fun k => k <> []) chunks ->
  short_of_a_frame ev (concat chunks) ->
  is_exception e = true ->
  exists s',
    _handle_client use_tls ev c (fresh fs) = (inr tt, s')
    /\ files s' = fs
    /\ sent s' = []
    /\ closed s' = true
    /\ errors s' = [e].
Proof.
  intros Hin Hne Hshort He.
  assert (exists lines,
            Forall no_error_line lines
            /\ recv_loop ev (incoming c) init_locals (fresh fs)
               = (inl e, add_lines lines (fresh fs))) as (lines & Hok & Hloop).
  { rewrite Hin.
    destruct Hshort as [Hfew | (a & b & rest & size & Hcat & Ha & Hb & Hutf & Hint & Hlt)].
    - exists []. split; [done|]. by rewrite recv_loop_waits.
    - destruct (recv_loop_reaches_header ev chunks (RecvRaise e :: more)
                  (fresh fs) a b rest) as (post & tail & Hpost & -> & ->);
        [done..|].
      unfold decode_utf8. rewrite Hutf, Hint. cbv zeta.
      rewrite len_app in Hlt. pose proof (len_nonneg (concat post)).
      destruct (size <=? len tail) eqn:E; [apply Z.leb_le in E; lia|].
      apply Z.leb_gt in E.
      set (st' := {| data := tail; header_received := true;
                     filename := a; filesize := size |}).
      destruct (recv_loop_payload ev post (RecvRaise e :: more) st'
                  (print (LogReceiving a size) (fresh fs)).2)
        as [_ H2]; [done|done|done|].
      exists [LogReceiving a size]. split; [by repeat constructor|].
      etransitivity; [apply H2|done].
      cbn [data st' filesize]. rewrite len_app. lia. }
  rewrite (handle_client_loop_raises _ _ _ _ _ _ Hloop He).
  eexists. split; [reflexivity|]. cbn [files sent closed add_lines fresh].
  repeat split. unfold errors, add_lines, fresh. cbn [printed app].
  rewrite !omap_app, (no_error_lines lines Hok). done.
Qed.

Lemma receive_error_witness :
  exists s',
    _handle_client false ev0 (peer_reset [lit "a.txt|10"; lit "|abc"]) (fresh ∅)
    = (inr tt, s')
    /\ files s' = ∅
    /\ sent s' = []
    /\ closed s' = true
    /\ errors s' = [OSError].
Proof.
  apply (receive_error_before_the_frame_is_complete false ev0
           (peer_reset [lit "a.txt|10"; lit "|abc"]) ∅
           [lit "a.txt|10"; lit "|abc"] [] OSError).
  - reflexivity.
  - repeat constructor; discriminate.
  - right. exists (lit "a.txt"), (lit "10"), (lit "abc"), 10.
    split; [reflexivity|].
    split; [apply contains_false; reflexivity|].
    split; [apply contains_false; reflexivity|].
    split; [reflexivity|]. split; [reflexivity|]. reflexivity.
  - reflexivity.
Defined.



Lemma path_for_inj (tls1 tls2 : bool) (name1 name2 : text) :
  path_for tls1 name1 = path_for tls2 name2 -> tls1 = tls2 /\ name1 = name2.
Proof.
  unfold path_for. destruct tls1, tls2; cbn; intros H; simplify_eq; done.
Qed.



Lemma frame_split (n d p : bytes) :
  DELIM ∉ n -> DELIM ∉ d ->
  split DELIM (n ++ DELIM :: d ++ DELIM :: p) = n :: d :: split DELIM p.
Proof. intros Hn Hd. by rewrite !split_first. Qed.

Lemma str_of_nat_inj (k1 k2 : nat) : str_of_nat k1 = str_of_nat k2 -> k1 = k2.
Proof.
  intros H. apply (f_equal int_ascii) in H.
  rewrite !int_ascii_str_of_nat in H. injection H. lia.
Qed.

(** Extra X11.  Two frames built by the client from names without the
    delimiter are the same bytes only when the names and the payloads
    are the same. *)
Theorem frames_are_unambiguous
    (name1 name2 : text) (payload1 payload2 : bytes) :
  DELIM ∉ name1 -> DELIM ∉ name2 ->
  Client.make_header name1 (length payload1) ++ payload1 =
  Client.make_header name2 (length payload2) ++ payload2 ->
  name1 = name2 /\ payload1 = payload2.
Proof.
  intros H1 H2 Heq. rewrite !header_shape in Heq.
  pose proof (f_equal (split DELIM) Heq) as Hs.
  rewrite !frame_split in Hs
    by (done || apply digit_not_delim, str_of_nat_digits).
  injection Hs as -> Hd _. split; [done|].
  rewrite Hd in Heq. apply app_inv_head in Heq.
  injection Heq as Heq. apply app_inv_head in Heq. by injection Heq.
Qed.

Lemma frames_witness :
  lit "a.txt" = lit "a.txt" /\ lit "abc" = lit "abc".
Proof.
  apply (frames_are_unambiguous (lit "a.txt") (lit "a.txt") (lit "abc") (lit "abc")).
  - apply contains_false; reflexivity.
  - apply contains_false; reflexivity.
  - reflexivity.
Defined.

(** Extra X8.  When the file name holds a delimiter, the server takes
    what stands before it for the name and what follows it, up to the
    next delimiter, for the size: the loop raises when that is not an
    integer, and otherwise ends with the shortened name and that
    size. *)
Theorem delimiter_in_the_name_is_read_as_its_end
    (ev : env) (s : state) (a b : text) (payload : bytes)
    (chunks : list bytes) :
  DELIM ∉ a -> DELIM ∉ b ->
  utf8_valid (a ++ DELIM :: b) = true ->
  Forall (fun k => k <> []) chunks ->
  concat chunks =
    Client.make_header (a ++ DELIM :: b) (length payload) ++ payload ->
  match int (unicode_int ev) b with
  | inl e => recv_loop ev (map RecvData chunks) init_locals s = (inl e, s)
  | inr size =>
      exists st s',
        recv_loop ev (map RecvData chunks) init_locals s = (inr st, s')
        /\ header_received st = true
        /\ filename st = a
        /\ filesize st = size
  end.
Proof.
  intros Ha Hb Hutf Hne Hcat.
  rewrite header_shape, <- app_assoc in Hcat. cbn [app] in Hcat.
  destruct (recv_loop_reaches_header ev chunks [] s a b _ Hne Hcat Ha Hb)
    as (post & tail & Hpost & Hrest & Hloop).
  rewrite !app_nil_r in Hloop. rewrite Hloop. clear Hloop.
  unfold decode_utf8.
  replace (a ++ DELIM :: b ++ [DELIM]) with ((a ++ DELIM :: b) ++ [DELIM])
    by (by rewrite <- app_assoc).
  rewrite utf8_valid_app by done. cbn [utf8_valid utf8_run].
  change (utf8_step U_start DELIM) with (Some U_start). cbv iota.
  destruct (int (unicode_int ev) b) as [e|size]; [done|].
  cbv zeta.
  destruct (size <=? len tail) eqn:E; [by eexists _, _|].
  apply Z.leb_gt in E.
  set (st' := {| data := tail; header_received := true;
                 filename := a; filesize := size |}).
  set (s1 := (print (LogReceiving a size) s).2).
  destruct (recv_loop_payload ev post [] st' s1) as [H1 H2]; [done|done|done|].
  rewrite !app_nil_r in H1, H2.
  destruct (Z_le_gt_dec (filesize st') (len (data st' ++ concat post))) as [Hle|Hgt].
  - destruct (H1 Hle) as (k & _ & _ & Hk).
    eexists _, _. split; [exact Hk|]. done.
  - eexists _, _. split; [etransitivity; [apply H2; lia|reflexivity]|]. done.
Qed.

Lemma delimiter_in_the_name_witness :
  exists st s',
    recv_loop ev0 (map RecvData [lit "a|7|3|"; lit "xyz"]) init_locals (fresh ∅)
    = (inr st, s')
    /\ header_received st = true
    /\ filename st = lit "a"
    /\ filesize st = 7.
Proof.
  apply (delimiter_in_the_name_is_read_as_its_end ev0 (fresh ∅)
           (lit "a") (lit "7") (lit "xyz") [lit "a|7|3|"; lit "xyz"]).
  - apply contains_false; reflexivity.
  - apply contains_false; reflexivity.
  - reflexivity.
  - repeat constructor; discriminate.
  - reflexivity.
Defined.

(** Where a complete frame ends up, whatever becomes of the
    acknowledgement. *)
Lemma handler_saves (use_tls : bool) (ev : env) (c : conn)
    (name : text) (content : bytes) (fs : gmap text bytes) :
  delivers ev c name content ->
  open_answer ev (path_for use_tls name) = None ->
  write_answer ev (path_for use_tls name) content = None ->
  files (_handle_client use_tls ev c (fresh fs)).2
  = <[path_for use_tls name := content]> fs.
Proof.
  intros Hd Hopen Hwrite.
  destruct (handler_with_complete_frame use_tls ev c name content (fresh fs) Hd)
    as (st & -> & Hhr & Hname & Hcontent).
  unfold try_finally, try_except, save_and_ack.
  rewrite Hhr, Hname, Hcontent, path_of_name. fold (path_for use_tls name).
  unfold open_wb, write, sendall, close, print. eff.
  rewrite Hopen, Hwrite.
  destruct (sendall_answer c) as [e|]; [destruct (is_exception e)|];
    cbn; apply insert_insert_eq.
Qed.

(** Extra X9.  Two handlers that receive complete frames for different
    files (another name, or the other protocol) leave the same disk
    whichever of them runs first, with both files holding their
    content. *)
Theorem transfers_to_different_files_do_not_interfere
    (tls1 tls2 : bool) (ev : env) (c1 c2 : conn)
    (name1 name2 : text) (content1 content2 : bytes)
    (fs : gmap text bytes) :
  delivers ev c1 name1 content1 ->
  delivers ev c2 name2 content2 ->
  (tls1 <> tls2 \/ name1 <> name2) ->
  open_answer ev (path_for tls1 name1) = None ->
  write_answer ev (path_for tls1 name1) content1 = None ->
  open_answer ev (path_for tls2 name2) = None ->
  write_answer ev (path_for tls2 name2) content2 = None ->
  files (_handle_client tls1 ev c1
           (fresh (files (_handle_client tls2 ev c2 (fresh fs)).2))).2
  = files (_handle_client tls2 ev c2
             (fresh (files (_handle_client tls1 ev c1 (fresh fs)).2))).2
  /\ files (_handle_client tls1 ev c1
              (fresh (files (_handle_client tls2 ev c2 (fresh fs)).2))).2
     = <[path_for tls1 name1 := content1]>
         (<[path_for tls2 name2 := content2]> fs)
  /\ path_for tls1 name1 <> path_for tls2 name2.
Proof.
  intros Hd1 Hd2 Hne Ho1 Hw1 Ho2 Hw2.
  assert (path_for tls1 name1 <> path_for tls2 name2) as Hp.
  { intros Heq. apply path_for_inj in Heq as [? ?].
    destruct Hne; contradiction. }
  rewrite !(handler_saves tls1 ev c1 name1 content1) by done.
  rewrite !(handler_saves tls2 ev c2 name2 content2) by done.
  split; [|done]. by apply insert_insert_ne.
Qed.

Lemma different_files_witness :
  files (_handle_client false ev0 (peer three_chunks)
           (fresh (files (_handle_client true ev0 (peer three_chunks)
                            (fresh ∅)).2))).2
  = files (_handle_client true ev0 (peer three_chunks)
             (fresh (files (_handle_client false ev0 (peer three_chunks)
                              (fresh ∅)).2))).2
  /\ files (_handle_client false ev0 (peer three_chunks)
              (fresh (files (_handle_client true ev0 (peer three_chunks)
                               (fresh ∅)).2))).2
     = <[path_for false (lit "a.txt") := lit "abc"]>
         (<[path_for true (lit "a.txt") := lit "abc"]> ∅)
  /\ path_for false (lit "a.txt") <> path_for true (lit "a.txt").
Proof.
  apply (transfers_to_different_files_do_not_interfere false true ev0
           (peer three_chunks) (peer three_chunks)
           (lit "a.txt") (lit "a.txt") (lit "abc") (lit "abc") ∅).
  - by apply three_chunks_deliver.
  - by apply three_chunks_deliver.
  - left. discriminate.
  - reflexivity.
  - reflexivity.
  - reflexivity.
  - reflexivity.
Defined.

(** Extra X10.  Two complete frames with the same name over the same
    protocol: the file holds the content of the handler that ran last,
    and nothing is left of the other. *)
Theorem later_transfer_replaces_the_earlier_file
    (use_tls : bool) (ev : env) (c1 c2 : conn)
    (name : text) (content1 content2 : bytes) (fs : gmap text bytes) :
  delivers ev c1 name content1 ->
  delivers ev c2 name content2 ->
  open_answer ev (path_for use_tls name) = None ->
  write_answer ev (path_for use_tls name) content1 = None ->
  write_answer ev (path_for use_tls name) content2 = None ->
  files (_handle_client use_tls ev c2
           (fresh (files (_handle_client use_tls ev c1 (fresh fs)).2))).2
  = <[path_for use_tls name := content2]> fs.
Proof.
  intros Hd1 Hd2 Hopen Hw1 Hw2.
  rewrite (handler_saves use_tls ev c2 name content2) by done.
  rewrite (handler_saves use_tls ev c1 name content1) by done.
  apply insert_insert_eq.
Qed.

Lemma later_transfer_witness :
  files (_handle_client false ev0 (peer three_chunks)
           (fresh (files (_handle_client false ev0 (peer [lit "a.txt|1|z"])
                            (fresh ∅)).2))).2
  = <[path_for false (lit "a.txt") := lit "abc"]> ∅.
Proof.
  apply (later_transfer_replaces_the_earlier_file false ev0
           (peer [lit "a.txt|1|z"]) (peer three_chunks)
           (lit "a.txt") (lit "z") (lit "abc") ∅).
  - exists [lit "a.txt|1|z"], [], (lit "1"), (lit "z"), 1.
    split; [reflexivity|]. split; [repeat constructor; discriminate|].
    split; [reflexivity|].
    split; [apply contains_false; reflexivity|].
    split; [apply contains_false; reflexivity|].
    split; [reflexivity|]. split; [reflexivity|].
    split; [|reflexivity]. vm_compute. split; discriminate.
  - by apply three_chunks_deliver.
  - reflexivity.
  - reflexivity.
  - reflexivity.
Defined.

End ServerExtras.

(** * Further properties of the client *)

Module ClientExtras.
Import Py PyFacts Client ClientFacts ClientMore Samples MoreSamples.

Lemma messages_app (tr tr' : list event) :
  messages (tr ++ tr') = messages tr ++ messages tr'.
Proof. apply List.filter_app. Qed.

Ltac wrap_up H shape :=
  cbn [is_exception] in H; injection H as <- <-;
  cbn [trace socket transfer_stats set_stats];
  split; [done|]; split;
  [ eexists; split;
    [ rewrite <- ?app_assoc; rewrite !messages_app;
      cbn [app messages List.filter is_sendall]; reflexivity
    | shape ]
  | intros _ _; rewrite <- ?app_assoc; cbn [app]; by eexists ].

(** Every way [send_file] can end. *)
Lemma send_file_cases (ev : env) (filepath : text) (s s' : state)
    (r : exn + bool) :
  send_file ev filepath s = (r, s') ->
  socket s' = socket s
  /\ (exists new,
        messages (trace s') = messages (trace s) ++ new
        /\ wire_shape ev filepath new)
  /\ (socket s <> None -> file_exists ev filepath = true ->
      exists rest, trace s' = trace s ++ EvReadFile filepath :: rest).
Proof.
  unfold send_file. destruct (socket s) as [k|] eqn:Hsock.
  2:{ unfold print, emit. eff. intros [= <- <-]. cbn [trace socket].
      split; [done|]. split; [|done].
      exists []. rewrite messages_app. split; [done|by left]. }
  destruct (file_exists ev filepath) eqn:Hex; cbn [negb].
  2:{ unfold print, emit. eff. intros [= <- <-]. cbn [trace socket].
      split; [done|]. split; [|done].
      exists []. rewrite messages_app. split; [done|by left]. }
  unfold try_except, read_text, sendall, time, recv, print, print_error, emit.
  eff. cbn [trace socket transfer_stats set_stats].
  intros H.
  destruct (file_bytes ev filepath) as [e|raw] eqn:Hraw.
  { destruct (is_exception e); wrap_up H ltac:(by left). }
  unfold decode_utf8 at 1 in H.
  destruct (utf8_valid raw) eqn:Hutf.
  2:{ wrap_up H ltac:(by left). }
  destruct (sendall_answer ev _) as [e|].
  { destruct (is_exception e); wrap_up H ltac:(by left). }
  cbn [trace socket transfer_stats] in H.
  destruct (sendall_answer ev _) as [e|].
  { destruct (is_exception e);
      wrap_up H ltac:(right; exists raw; split; [done|]; split; [done|]; by left). }
  cbn [trace socket transfer_stats] in H.
  destruct (recv_answer ev) as [e|got].
  { destruct (is_exception e);
      wrap_up H ltac:(right; exists raw; split; [done|]; split; [done|]; by right). }
  destruct (decode_utf8 got) as [e|ack].
  { destruct (is_exception e);
      wrap_up H ltac:(right; exists raw; split; [done|]; split; [done|]; by right). }
  wrap_up H ltac:(right; exists raw; split; [done|]; split; [done|]; by right).
Qed.


(** Extra X12.  However [send_file] ends, it leaves [self.socket] as it
    was and has sent nothing, or the header, or the header and then the
    content; it sends nothing at all unless the file was read and
    decoded. *)
Theorem payload_is_never_sent_without_its_header
    (ev : env) (filepath : text) (s s' : state) (r : exn + bool) :
  send_file ev filepath s = (r, s') ->
  socket s' = socket s
  /\ exists new,
       messages (trace s') = messages (trace s) ++ new
       /\ wire_shape ev filepath new.
Proof.
  intros H. destruct (send_file_cases ev filepath s s' r H) as (H1 & H2 & _).
  done.
Qed.

Lemma payload_witness :
  socket (send_file cenv_broken some_path connected).2 = socket connected
  /\ exists new,
       messages (trace (send_file cenv_broken some_path connected).2)
       = messages (trace connected) ++ new
       /\ wire_shape cenv_broken some_path new.
Proof.
  apply (payload_is_never_sent_without_its_header cenv_broken some_path
           connected (send_file cenv_broken some_path connected).2
           (send_file cenv_broken some_path connected).1).
  vm_compute. reflexivity.
Defined.

(** Extra X13.  After a refused [connect_plain] the attribute
    [self.socket] holds the unconnected socket, so a [send_file] that
    follows passes the test for a connection and reads the file. *)
Theorem send_after_a_refused_connection_still_reads_the_file
    (ev : env) (filepath : text) (s : state) (e : exn) :
  create_answer ev = None ->
  connect_answer ev = Some e ->
  is_exception e = true ->
  file_exists ev filepath = true ->
  (connect_plain ev s).1 = inr false
  /\ socket (connect_plain ev s).2 = Some {| Client.tls := false; Client.connected := false |}
  /\ exists rest,
       trace (send_file ev filepath (connect_plain ev s).2).2
       = trace (connect_plain ev s).2 ++ EvReadFile filepath :: rest.
Proof.
  intros Hc Hn He Hex.
  assert ((connect_plain ev s).1 = inr false
          /\ socket (connect_plain ev s).2
             = Some {| Client.tls := false; Client.connected := false |}) as [H1 H2].
  { unfold connect_plain, try_except, _create_socket, print, print_error, emit.
    eff. rewrite Hc, Hn. cbn. rewrite He. done. }
  split; [done|]. split; [done|].
  destruct (send_file ev filepath (connect_plain ev s).2) as [r s'] eqn:H.
  destruct (send_file_cases _ _ _ _ _ H) as (_ & _ & H3).
  apply H3; [by rewrite H2|done].
Qed.

Lemma send_after_refusal_witness :
  (connect_plain cenv_refused init).1 = inr false
  /\ socket (connect_plain cenv_refused init).2
     = Some {| Client.tls := false; Client.connected := false |}
  /\ exists rest,
       trace (send_file cenv_refused some_path (connect_plain cenv_refused init).2).2
       = trace (connect_plain cenv_refused init).2 ++ EvReadFile some_path :: rest.
Proof.
  apply (send_after_a_refused_connection_still_reads_the_file cenv_refused
           some_path init ConnectionRefusedError); reflexivity.
Defined.

End ClientExtras.

(** * The client and the server together *)

Module TransferExtras.
Import Py PyFacts Server ServerFacts ServerMore ServerExtras ClientMore Samples MoreSamples.

Lemma wire_app (tr tr' : list Client.event) : wire (tr ++ tr') = wire tr ++ wire tr'.
Proof. unfold wire. by rewrite omap_app, concat_app. Qed.

(** A frame built by the client, in any chunks, is a complete frame for
    the handler. *)
Lemma client_frame_delivers (ev : env) (c : conn) (name : text)
    (payload : bytes) (chunks : list bytes) (more : list recv_event) :
  utf8_valid name = true ->
  DELIM ∉ name ->
  Forall (fun k => k <> []) chunks ->
  concat chunks = Client.make_header name (length payload) ++ payload ->
  incoming c = map RecvData chunks ++ more ->
  delivers ev c name payload.
Proof.
  intros Hutf Hname Hne Hcat Hin.
  exists chunks, more, (str_of_nat (length payload)), payload,
    (Z.of_nat (length payload)).
  split; [done|]. split; [done|].
  split; [by rewrite Hcat, header_shape|].
  split; [done|]. split; [apply digit_not_delim, str_of_nat_digits|].
  split; [by apply header_valid|].
  split; [apply int_str_of_nat|].
  split; [unfold len; lia|].
  by rewrite Nat2Z.id, firstn_all.
Qed.

(** Extra X14.  What a successful [send_file] has put on a fresh
    connection, cut into chunks in any way, makes the handler save
    exactly the content that was sent, under the base name of the
    client's path, and acknowledge. *)
Theorem what_the_client_sends_is_what_the_server_saves
    (cev : Client.env) (filepath : text) (s s' : Client.state)
    (use_tls : bool) (ev : env) (c : conn) (fs : gmap text bytes)
    (chunks : list bytes) (more : list recv_event) :
  Client.send_file cev filepath s = (inr true, s') ->
  wire (Client.trace s) = [] ->
  utf8_valid (basename filepath) = true ->
  DELIM ∉ basename filepath ->
  Forall (fun k => k <> []) chunks ->
  concat chunks = wire (Client.trace s') ->
  incoming c = map RecvData chunks ++ more ->
  open_answer ev (path_for use_tls (basename filepath)) = None ->
  (forall v, write_answer ev (path_for use_tls (basename filepath)) v = None) ->
  sendall_answer c = None ->
  exists raw h,
    Client.file_bytes cev filepath = inr raw
    /\ _handle_client use_tls ev c (fresh fs) = (inr tt, h)
    /\ files h = <[path_for use_tls (basename filepath) := universal_newlines raw]> fs
    /\ sent h = [ACK]
    /\ closed h = true
    /\ errors h = [].
Proof.
  intros Hsend Hwire Hutf Hname Hne Hcat Hin Hopen Hwrite Hack.
  destruct (ClientFacts.send_file_success _ _ _ _ Hsend)
    as (raw & got & Hraw & _ & Hs').
  cbv zeta in Hs'. subst s'. cbn [Client.trace] in Hcat.
  rewrite wire_app, Hwire in Hcat. cbn in Hcat. rewrite app_nil_r in Hcat.
  exists raw.
  assert (delivers ev c (basename filepath) (universal_newlines raw)) as Hd.
  { by apply (client_frame_delivers ev c _ _ chunks more). }
  destruct (handler_with_complete_frame use_tls ev c _ _ (fresh fs) Hd)
    as (st & -> & Hhr & Hn & Hcontent).
  unfold try_finally, try_except, save_and_ack.
  rewrite Hhr, Hn, Hcontent, path_of_name.
  fold (path_for use_tls (basename filepath)).
  unfold open_wb, write, sendall, close, print. eff.
  rewrite Hopen, Hwrite, Hack. cbn.
  eexists. split; [done|]. split; [reflexivity|]. cbn.
  split; [apply insert_insert_eq|]. done.
Qed.

Lemma what_the_client_sends_witness :
  exists raw h,
    Client.file_bytes cenv_ok some_path = inr raw
    /\ _handle_client true ev0
         (peer [lit "teste"; lit ".txt|7|on"; lit "e"; [x0a]; lit "two"]) (fresh ∅)
       = (inr tt, h)
    /\ files h = <[path_for true (basename some_path) := universal_newlines raw]> ∅
    /\ sent h = [ACK]
    /\ closed h = true
    /\ errors h = [].
Proof.
  apply (what_the_client_sends_is_what_the_server_saves cenv_ok some_path
           connected (Client.send_file cenv_ok some_path connected).2
           true ev0
           (peer [lit "teste"; lit ".txt|7|on"; lit "e"; [x0a]; lit "two"]) ∅
           [lit "teste"; lit ".txt|7|on"; lit "e"; [x0a]; lit "two"] []).
  - vm_compute. reflexivity.
  - reflexivity.
  - reflexivity.
  - apply contains_false; reflexivity.
  - repeat constructor; discriminate.
  - vm_compute. reflexivity.
  - reflexivity.
  - reflexivity.
  - reflexivity.
  - reflexivity.
Defined.

End TransferExtras.

(** * Further properties of the client's [main] *)

Module ClientMainExtras.
Import Py PyFacts Client ClientFacts ClientMain Samples MoreSamples.

Lemma connect_plain_keeps_stats (ev : env) : keeps_stats (connect_plain ev).
Proof.
  intros s r s'.
  unfold connect_plain, try_except, _create_socket, print, print_error, emit.
  eff.
  destruct (create_answer ev) as [e|].
  { destruct (is_exception e); by intros [= <- <-]. }
  cbn. destruct (connect_answer ev) as [e|].
  { destruct (is_exception e); by intros [= <- <-]. }
  by intros [= <- <-].
Qed.

Lemma connect_tls_keeps_stats (ev : env) : keeps_stats (connect_tls ev).
Proof.
  intros s r s'.
  unfold connect_tls, try_except, _create_socket, print, print_error, emit.
  eff.
  destruct (create_answer ev) as [e|].
  { destruct (is_exception e); by intros [= <- <-]. }
  cbn. destruct (context_answer ev) as [e|].
  { destruct (is_exception e); by intros [= <- <-]. }
  cbn. destruct (connect_answer ev) as [e|].
  { destruct (is_exception e); by intros [= <- <-]. }
  cbn. destruct (handshake_answer ev) as [e|].
  { destruct (is_exception e); by intros [= <- <-]. }
  by intros [= <- <-].
Qed.

Lemma run_test_failed_connect (connect : Eff state bool) (ev : env) :
  (connect init).1 = inr false ->
  run_test connect ev =
  (inr tt, {| stats_var := None; socket_closed := false;
              client := (connect init).2 |}).
Proof.
  unfold run_test. destruct (connect init) as [r s1]. cbn. by intros ->.
Qed.

(** Extra X15.  When the plain connection fails, [main] still runs the
    TLS test and then ends with [UnboundLocalError] on [stats_plain]
    (unless an interrupt comes up from the TLS test). *)
Theorem main_breaks_when_the_plain_connection_fails (m : machine) :
  write_answer m = None ->
  (connect_plain (with_test_file (plain_side m)) init).1 = inr false ->
  (exists e p t, main m = (inl (Propagated e), Some p, Some t))
  \/ (exists p t,
        main m = (inl (UnboundLocalError "stats_plain"), Some p, Some t)
        /\ socket_closed p = false).
Proof.
  intros Hw Hc. unfold main. rewrite Hw.
  rewrite (run_test_failed_connect _ _ Hc).
  destruct (run_test _ _) as [[e|[]] t].
  - left. by eexists _, _, _.
  - right. eexists _, _. split; [reflexivity|done].
Qed.

Lemma main_plain_down_witness :
  (exists e p t, main plain_down = (inl (Propagated e), Some p, Some t))
  \/ (exists p t,
        main plain_down = (inl (UnboundLocalError "stats_plain"), Some p, Some t)
        /\ socket_closed p = false).
Proof.
  apply (main_breaks_when_the_plain_connection_fails plain_down); reflexivity.
Defined.


Lemma run_test_after_connect (connect : Eff state bool) (ev : env) (b : bool) :
  (connect init).1 = inr true ->
  (send_file ev test_file (connect init).2).1 = inr b ->
  run_test connect ev =
  (inr tt,
   {| stats_var :=
        Some (get_stats (send_file ev test_file (connect init).2).2);
      socket_closed := close (send_file ev test_file (connect init).2).2;
      client := (send_file ev test_file (connect init).2).2 |}).
Proof.
  unfold run_test. destruct (connect init) as [r s1]. cbn [fst snd]. intros ->.
  destruct (send_file ev test_file s1) as [r2 s2]. cbn [fst snd]. by intros ->.
Qed.

(** Extra X16.  [main] ignores the result of [send_file]: when both
    connections are made and the plain transfer fails, the comparison
    divides by the initial [transfer_time] of zero and [main] ends with
    [ZeroDivisionError]. *)
Theorem main_divides_by_zero_when_the_plain_send_fails (m : machine) (b : bool) :
  write_answer m = None ->
  (connect_plain (with_test_file (plain_side m)) init).1 = inr true ->
  (send_file (with_test_file (plain_side m)) test_file
     (connect_plain (with_test_file (plain_side m)) init).2).1 = inr false ->
  (connect_tls (with_test_file (tls_side m)) init).1 = inr true ->
  (send_file (with_test_file (tls_side m)) test_file
     (connect_tls (with_test_file (tls_side m)) init).2).1 = inr b ->
  exists p t, main m = (inl ZeroDivisionError, Some p, Some t).
Proof.
  intros Hw Hc Hs Hc' Hs'. unfold main. rewrite Hw.
  rewrite (run_test_after_connect _ _ false Hc Hs).
  rewrite (run_test_after_connect _ _ b Hc' Hs').
  eexists _, _. f_equal. f_equal. cbn [stats_var]. unfold compare, get_stats.
  set (ev := with_test_file (plain_side m)) in *.
  assert (transfer_stats (send_file ev test_file (connect_plain ev init).2).2
          = transfer_stats init) as ->.
  { destruct (connect_plain ev init) as [r1 s1] eqn:E1. cbn [fst snd] in *.
    destruct (send_file ev test_file s1) as [r2 s2] eqn:E2.
    cbn [fst snd] in *. subst.
    rewrite (send_file_keeps_stats_unless_true ev test_file s1 _ _ E2) by done.
    by apply (connect_plain_keeps_stats ev init _ _ E1). }
  reflexivity.
Qed.

Lemma main_plain_breaks_witness :
  exists p t, main plain_breaks = (inl ZeroDivisionError, Some p, Some t).
Proof.
  apply (main_divides_by_zero_when_the_plain_send_fails plain_breaks true);
    vm_compute; reflexivity.
Defined.

Lemma test_content_is_text :
  utf8_valid test_content = true
  /\ universal_newlines test_content = test_content
  /\ length test_content = 4900%nat.
Proof. vm_compute. done. Qed.

(** Extra X17.  When both transfers of [main] go through, both tests
    report the same [bytes_sent], 4915 (a header of 15 bytes and the
    4900 bytes of the test file): the figure does not show what TLS
    adds on the wire. *)
Theorem both_tests_report_the_same_bytes (m : machine) :
  write_answer m = None ->
  (connect_plain (with_test_file (plain_side m)) init).1 = inr true ->
  (send_file (with_test_file (plain_side m)) test_file
     (connect_plain (with_test_file (plain_side m)) init).2).1 = inr true ->
  (connect_tls (with_test_file (tls_side m)) init).1 = inr true ->
  (send_file (with_test_file (tls_side m)) test_file
     (connect_tls (with_test_file (tls_side m)) init).2).1 = inr true ->
  exists r p t sp st,
    main m = (r, Some p, Some t)
    /\ stats_var p = Some sp /\ stats_var t = Some st
    /\ bytes_sent sp = 4915 /\ bytes_sent st = 4915.
Proof.
  intros Hw Hc Hs Hc' Hs'. unfold main. rewrite Hw.
  rewrite (run_test_after_connect _ _ true Hc Hs).
  rewrite (run_test_after_connect _ _ true Hc' Hs').
  eexists _, _, _, _, _. split; [reflexivity|].
  split; [reflexivity|]. split; [reflexivity|].
  assert (forall ev s,
            (send_file (with_test_file ev) test_file s).1 = inr true ->
            bytes_sent (get_stats (send_file (with_test_file ev) test_file s).2)
            = 4915) as Hbytes.
  { intros ev s H.
    destruct (send_file (with_test_file ev) test_file s) as [r s'] eqn:E.
    cbn in H. subst r.
    destruct (send_file_success _ _ _ _ E) as (raw & got & Hraw & _ & ->).
    cbn [file_bytes with_test_file] in Hraw.
    rewrite decide_True in Hraw by done. injection Hraw as <-.
    cbn [get_stats transfer_stats bytes_sent].
    destruct test_content_is_text as (_ & -> & Hlen).
    unfold len. rewrite Hlen. vm_compute. reflexivity. }
  split; by apply Hbytes.
Qed.

Lemma main_both_up_witness :
  exists r p t sp st,
    main both_up = (r, Some p, Some t)
    /\ stats_var p = Some sp /\ stats_var t = Some st
    /\ bytes_sent sp = 4915 /\ bytes_sent st = 4915.
Proof.
  apply (both_tests_report_the_same_bytes both_up); vm_compute; reflexivity.
Defined.

End ClientMainExtras.

(** * Further properties of the acceptor *)

Module AcceptorExtras.
Import Py PyFacts Acceptor AcceptorFacts AcceptorMore Samples MoreSamples.

(** Extra X18.  An interrupt while the acceptor waits ends the loop
    with a message and closes the listening socket; the accepted
    connections and the started handlers are left as they are. *)
Theorem interrupt_ends_the_loop_with_a_message (use_tls : bool) (s : server) :
  position_of s = AtAccept ->
  position_of (arrive use_tls (AcceptRaise KeyboardInterrupt) s).2 = Exited
  /\ running (arrive use_tls (AcceptRaise KeyboardInterrupt) s).2 = false
  /\ listener (arrive use_tls (AcceptRaise KeyboardInterrupt) s).2
     = (fun _ => false) <$> listener s
  /\ console (arrive use_tls (AcceptRaise KeyboardInterrupt) s).2
     = console s ++ [LineStopping]
  /\ conns (arrive use_tls (AcceptRaise KeyboardInterrupt) s).2 = conns s
  /\ threads (arrive use_tls (AcceptRaise KeyboardInterrupt) s).2 = threads s.
Proof.
  intros Hpos. unfold arrive, turn, accept_body, stop, close_listener,
    set_running, set_listener, set_position, print.
  rewrite Hpos. eff. cbn.
  destruct (listener s); cbn; done.
Qed.

Lemma interrupt_witness :
  position_of (arrive false (AcceptRaise KeyboardInterrupt) one_accepted).2 = Exited
  /\ running (arrive false (AcceptRaise KeyboardInterrupt) one_accepted).2 = false
  /\ listener (arrive false (AcceptRaise KeyboardInterrupt) one_accepted).2
     = (fun _ => false) <$> listener one_accepted
  /\ console (arrive false (AcceptRaise KeyboardInterrupt) one_accepted).2
     = console one_accepted ++ [LineStopping]
  /\ conns (arrive false (AcceptRaise KeyboardInterrupt) one_accepted).2
     = conns one_accepted
  /\ threads (arrive false (AcceptRaise KeyboardInterrupt) one_accepted).2
     = threads one_accepted.
Proof.
  apply (interrupt_ends_the_loop_with_a_message false one_accepted).
  reflexivity.
Defined.

Lemma start_keeps_connections (b : boot) (s : server) :
  conns (start b s).2 = conns s /\ threads (start b s).2 = threads s.
Proof.
  unfold start, try_except, stop, close_listener,
    set_listener, set_running, set_position, print.
  eff.
  destruct (create_answer b) as [e1|]; cbn.
  { destruct (is_exception e1); cbn; by destruct (listener s). }
  destruct (bind_answer b) as [e2|]; cbn.
  { by destruct (is_exception e2). }
  destruct (listen_answer b) as [e3|]; cbn.
  { by destruct (is_exception e3). }
  done.
Qed.

Lemma leave_keeps_connections (s : server) :
  conns ((stop;; set_position Exited) s).2 = conns s
  /\ threads ((stop;; set_position Exited) s).2 = threads s.
Proof.
  unfold stop, close_listener, set_listener, set_running, set_position.
  eff. cbn. by destruct (listener s).
Qed.

(** What one turn of the loop does to the sockets and the threads. *)
Lemma arrive_other_connection (use_tls : bool) (a : arrival) (id : nat)
    (s : server) :
  accepts id (Arrive a) = false ->
  orphan id s -> orphan id (arrive use_tls a s).2.
Proof.
  intros Hacc [Hopen Hthr]. unfold arrive.
  destruct (position_of s); try done.
  assert (orphan id (turn use_tls a s).2) as Hturn.
  { unfold turn, accept_body.
    destruct a as [e| |id' c x y z].
    - unfold print. eff. unfold orphan.
      destruct e; cbn; destruct (running s); cbn; done.
    - unfold stop, close_listener, set_listener, set_running, print. eff.
      unfold orphan. cbn. destruct (listener s); cbn; done.
    - cbn in Hacc. apply bool_decide_eq_false in Hacc.
      unfold set_conn, print, wrap_socket, start_thread, set_conn. eff.
      unfold orphan.
      assert (forall v, <[id' := v]> (conns s) !! id = Some true) as Hc.
      { intros v. by rewrite lookup_insert_ne. }
      assert (forall v w, <[id' := w]> (<[id' := v]> (conns s)) !! id = Some true)
        as Hc2.
      { intros v w. by rewrite !lookup_insert_ne. }
      assert (id ∉ (threads s ++ [(id', c)]).*1) as Hthr'.
      { rewrite fmap_app. apply not_elem_of_app. split; [done|].
        cbn. intros ->%list_elem_of_singleton. done. }
      destruct use_tls, x as [ex|], y as [ey|], z as [ez|]; cbn;
        repeat match goal with
               | |- context [is_exception ?e] => destruct (is_exception e) eqn:?
               | |- context [match ?e with ValueError => _ | _ => _ end] =>
                   destruct e
               | |- context [running s] => destruct (running s)
               end; cbn; try done. }
  destruct (turn use_tls a s) as [[e|[]] s1]; cbn [snd] in *.
  - destruct Hturn. destruct (leave_keeps_connections s1) as [H1 H2].
    split; by rewrite ?H1, ?H2.
  - destruct (running s1); [done|].
    destruct Hturn. destruct (leave_keeps_connections s1) as [H1 H2].
    split; by rewrite ?H1, ?H2.
  - destruct Hturn. destruct (leave_keeps_connections s1) as [H1 H2].
    split; by rewrite ?H1, ?H2.
Qed.


Lemma run_handler_other_connection (use_tls : bool) (ev : Server.env)
    (j id : nat) (s : server) :
  orphan id s -> orphan id (run_handler use_tls ev j s).
Proof.
  intros [Hopen Hthr]. unfold run_handler.
  destruct (list_find _ _) as [[i [j' c]]|] eqn:E; [|done].
  apply list_find_Some in E as (Hi & Hj & _). cbn in Hj. subst j'.
  assert (j <> id) as Hne.
  { intros ->. apply Hthr. apply list_elem_of_fmap.
    exists (id, c). split; [done|]. by eapply list_elem_of_lookup_2. }
  destruct (Server._handle_client _ _ _ _) as [r h].
  split; cbn.
  - destruct (Server.closed h); [by rewrite lookup_insert_ne|done].
  - intros Hin. apply Hthr.
    apply list_elem_of_fmap in Hin as (t & -> & Hin).
    apply list_elem_of_fmap. exists t. split; [done|].
    by eapply list_elem_of_delete_inv.
Qed.


Lemma exec_keeps_orphan (use_tls : bool) (ev : Server.env)
    (schedule : list action) (id : nat) (s : server) :
  Forall (fun act => accepts id act = false) schedule ->
  orphan id s -> orphan id (exec use_tls ev schedule s).
Proof.
  intros Hs. revert s.
  induction Hs as [|act schedule Hact _ IH]; intros s Ho; [done|].
  cbn [exec foldl]. fold (exec use_tls ev schedule). apply IH.
  destruct act as [b|a|j]; cbn [step].
  - destruct (position_of s); try done.
    destruct Ho. destruct (start_keeps_connections b s) as [H1 H2].
    split; by rewrite ?H1, ?H2.
  - by apply arrive_other_connection.
  - by apply run_handler_other_connection.
Qed.

Lemma arrival_without_handler (use_tls : bool) (id : nat) (c : Server.conn)
    (x y z : answer) (s : server) :
  position_of s = AtAccept ->
  id ∉ (threads s).*1 ->
  never_handled use_tls (Accepted id c x y z) = true ->
  orphan id (arrive use_tls (Accepted id c x y z) s).2.
Proof.
  intros Hpos Hthr Hnever. unfold arrive. rewrite Hpos.
  assert (orphan id (turn use_tls (Accepted id c x y z) s).2) as Hturn.
  { unfold turn, accept_body, set_conn, print, wrap_socket, start_thread,
      set_conn. eff. unfold orphan.
    destruct use_tls, x as [ex|], y as [ey|], z as [ez|]; try done; cbn;
      repeat match goal with
             | |- context [match ?e with ValueError => _ | _ => _ end] =>
                 destruct e
             | |- context [running s] => destruct (running s)
             end; cbn; by rewrite lookup_insert_eq. }
  destruct (turn use_tls _ s) as [[e|[]] s1]; cbn [snd] in *.
  - destruct Hturn. destruct (leave_keeps_connections s1) as [H1 H2].
    split; by rewrite ?H1, ?H2.
  - destruct (running s1); [done|].
    destruct Hturn. destruct (leave_keeps_connections s1) as [H1 H2].
    split; by rewrite ?H1, ?H2.
  - destruct Hturn. destruct (leave_keeps_connections s1) as [H1 H2].
    split; by rewrite ?H1, ?H2.
Qed.

(** Extra X20.  When the certificate cannot be loaded for an accepted
    connection, or its handler thread cannot be started, no statement
    of the server closes the accepted socket, whatever the server does
    afterwards (as long as the identifier is not used again): it is left
    to the interpreter. *)
Theorem socket_without_handler_is_never_closed
    (use_tls : bool) (ev : Server.env) (id : nat) (c : Server.conn)
    (x y z : answer) (s : server) (schedule : list action) :
  position_of s = AtAccept ->
  id ∉ (threads s).*1 ->
  never_handled use_tls (Accepted id c x y z) = true ->
  Forall (fun act => accepts id act = false) schedule ->
  conns (exec use_tls ev schedule (arrive use_tls (Accepted id c x y z) s).2) !! id
  = Some true.
Proof.
  intros Hpos Hthr Hnever Hs.
  apply (exec_keeps_orphan use_tls ev schedule id); [done|].
  by apply arrival_without_handler.
Qed.

Lemma socket_without_handler_witness :
  conns (exec false ev0 [Run 0; Arrive (AcceptRaise OSError)]
           (arrive false (Accepted 1 (peer [lit "b|1|y"]) None None (Some RuntimeError))
              one_accepted).2) !! 1%nat
  = Some true.
Proof.
  apply (socket_without_handler_is_never_closed false ev0 1
           (peer [lit "b|1|y"]) None None (Some RuntimeError) one_accepted
           [Run 0; Arrive (AcceptRaise OSError)]).
  - reflexivity.
  - apply (bool_decide_unpack _). vm_compute. exact I.
  - reflexivity.
  - repeat constructor.
Defined.

Lemma leave_stops (s : server) :
  running ((stop;; set_position Exited) s).2 = false
  /\ listener ((stop;; set_position Exited) s).2 <> Some true.
Proof.
  unfold stop, close_listener, set_listener, set_running, set_position.
  eff. cbn. by destruct (listener s).
Qed.

Lemma turn_keeps_position (use_tls : bool) (a : arrival) (s : server) :
  position_of (turn use_tls a s).2 = position_of s.
Proof.
  unfold turn, accept_body.
  destruct a as [e| |id c x y z].
  - unfold print. eff. destruct e; cbn; destruct (running s); cbn; done.
  - unfold stop, close_listener, set_listener, set_running, print. eff.
    cbn. destruct (listener s); cbn; done.
  - unfold set_conn, print, wrap_socket, start_thread, set_conn. eff.
    destruct use_tls, x as [ex|], y as [ey|], z as [ez|]; cbn;
      repeat match goal with
             | |- context [match ?e with ValueError => _ | _ => _ end] =>
                 destruct e
             | |- context [running s] => destruct (running s)
             end; cbn; done.
Qed.

Lemma step_keeps_stopped (use_tls : bool) (ev : Server.env) (act : action)
    (s : server) :
  stopped s -> stopped (step use_tls ev act s).
Proof.
  intros Hs. destruct act as [b|a|id]; cbn [step].
  - destruct (position_of s) eqn:Hpos; try done.
    unfold start. destruct (try_except _ _ s) as [[e|[]] s1]; cbn [snd].
    + intros _. apply leave_stops.
    + unfold set_position. eff. done.
    + intros _. apply leave_stops.
  - unfold arrive. destruct (position_of s) eqn:Hpos; try done.
    pose proof (turn_keeps_position use_tls a s) as Ht.
    destruct (turn use_tls a s) as [[e|[]] s1]; cbn [snd] in *.
    + intros _. apply leave_stops.
    + destruct (running s1); [|intros _; apply leave_stops].
      intros H. cbn [snd] in H. congruence.
    + intros _. apply leave_stops.
  - destruct (run_handler_keeps_accepting use_tls ev id s) as (H1 & H2 & H3).
    unfold stopped. rewrite H1, H2, H3. done.
Qed.

(** Extra X19.  Whatever the schedule, once [start] has returned (the
    start-up failed, an interrupt came, or [stop()] was called) the
    flag [running] is unset and the listening socket is not open: the
    [finally] clause has run. *)
Theorem returned_start_has_stopped_the_server
    (use_tls : bool) (ev : Server.env) (schedule : list action)
    (fs : gmap text bytes) :
  position_of (exec use_tls ev schedule (init fs)) = Exited ->
  running (exec use_tls ev schedule (init fs)) = false
  /\ listener (exec use_tls ev schedule (init fs)) <> Some true.
Proof.
  assert (forall s, stopped s -> stopped (exec use_tls ev schedule s)) as H.
  { induction schedule as [|act schedule IH]; intros s Hs; [done|].
    cbn [exec foldl]. fold (exec use_tls ev schedule). apply IH.
    by apply step_keeps_stopped. }
  apply H. intros Hpos. done.
Qed.

Lemma returned_start_witness :
  running (exec false ev0 [Start boot_port_taken; Arrive StopCalled] (init ∅)) = false
  /\ listener (exec false ev0 [Start boot_port_taken; Arrive StopCalled] (init ∅))
     <> Some true.
Proof.
  apply (returned_start_has_stopped_the_server false ev0
           [Start boot_port_taken; Arrive StopCalled] ∅).
  reflexivity.
Defined.

End AcceptorExtras.
